(** * Request/Reply coordination over RabbitMQ

    A shallow embedding of [src/services/RabbitMQRequestReplyService.ts]
    (class [RabbitMQRequestReplyService]) together with the parts of the
    JavaScript run time it leans on: insertion-ordered [Map]s, one-shot
    promises, [setTimeout]/[clearTimeout] timers, the [||] operator and
    [parseInt(_, 10)].

    Conventions.
    - The service runs on a single-threaded event loop, one callback at a
      time; every operation below is one callback, a function on [State].
      [State] holds the fields of the class and the run time around them:
      the promise table, the timer table, the clock and the history of
      effects (console lines and calls into the transport).
    - What the environment decides is an argument: the way each call into
      [rabbitMQ] ends, the identifier drawn by [uuidv4()], the time stamp.
    - [sendRequest] suspends once, at [await rabbitMQ.publish(...)].
      [publish] settles without waiting on anything, so the continuation
      runs from the microtask queue, ahead of every timer and of every
      message; the model runs the two halves back to back and keeps the
      second one, [afterPublish], as a function of its own. [initialize]
      is one step as well.
    - Messages have the shape their TypeScript types give them
      ([BaseResponse]); JavaScript strings are UTF-8 byte strings, the form
      in which they cross the wire.
    - [number]s the service computes with (time stamps, time-outs, error
      codes) are integers in [Z]; JavaScript's doubles agree with them
      below 2^53.
    - The timer facility is the one of Node.js: [setTimeout(cb, delay)]
      takes a [delay] from 1 to 2^31-1 ms as it is and any other as 1 ms
      ([timerDelay]); the callback runs when the clock reaches the time of
      the call plus that delay, and not before. [Date.now()] is read off
      the same clock, which does not run backwards. *)

From Stdlib Require Import ZArith QArith Lqa String Ascii List Lia.
From Stdlib Require Import DecimalString DecimalPos.
From stdpp Require Import gmap strings list fin_maps sorting.

Local Open Scope string_scope.
Local Open Scope Z_scope.

(* ===================================================================== *)
(** ** JavaScript values used by the service                              *)
(* ===================================================================== *)

Module Js.

(** JSON documents, as produced by [JSON.parse] and consumed by
    [JSON.stringify]. Objects keep their keys in insertion order. *)
#[local] Unset Elimination Schemes.
Inductive Json : Type :=
| JNull
| JBool (b : bool)
| JNum (q : Q)
| JStr (s : string)
| JArr (items : list Json)
| JObj (fields : list (string * Json)).
#[local] Set Elimination Schemes.

(** [a || b] where [a : string | undefined]: the empty string and
    [undefined] are falsy. *)
Definition str_or (a : option string) (b : string) : string :=
  match a with
  | Some s => if String.eqb s "" then b else s
  | None => b
  end.

(** [a || b] where [a] is a number, [None] standing for [NaN]: [NaN] and
    zero (of either sign) are falsy. *)
Definition num_or (a : option Z) (b : Z) : Z :=
  match a with
  | Some n => if n =? 0 then b else n
  | None => b
  end.

Definition code (c : ascii) : N := N_of_ascii c.

(** One-byte members of StrWhiteSpaceChar: TAB, LF, VT, FF, CR, SP. *)
Definition ws1 (c : ascii) : bool :=
  let n := code c in
  ((9 <=? n) && (n <=? 13) || (n =? 32))%N.

(** Two-byte member: U+00A0 (C2 A0). *)
Definition ws2 (c1 c2 : ascii) : bool :=
  ((code c1 =? 194) && (code c2 =? 160))%N.

(** Three-byte members: U+1680, U+2000..U+200A, U+2028, U+2029, U+202F,
    U+205F, U+3000 and U+FEFF. *)
Definition ws3 (c1 c2 c3 : ascii) : bool :=
  let a := code c1 in
  let b := code c2 in
  let c := code c3 in
  ((a =? 225) && (b =? 154) && (c =? 128)
   || (a =? 226) && (b =? 128)
      && ((128 <=? c) && (c <=? 138) || (c =? 168) || (c =? 169) || (c =? 175))
   || (a =? 226) && (b =? 129) && (c =? 159)
   || (a =? 227) && (b =? 128) && (c =? 128)
   || (a =? 239) && (b =? 187) && (c =? 191))%N.

(** [TrimString(s, start)]: drop leading white space and line
    terminators. *)
Fixpoint trimStart (s : string) : string :=
  match s with
  | EmptyString => EmptyString
  | String c1 s1 =>
      if ws1 c1 then trimStart s1 else
      match s1 with
      | EmptyString => s
      | String c2 s2 =>
          if ws2 c1 c2 then trimStart s2 else
          match s2 with
          | EmptyString => s
          | String c3 s3 => if ws3 c1 c2 c3 then trimStart s3 else s
          end
      end
  end.

Definition digit (c : ascii) : option Z :=
  let n := code c in
  if ((48 <=? n) && (n <=? 57))%N then Some (Z.of_N n - 48) else None.

(** Value of the longest prefix of decimal digits; [acc] is [None] until
    a first digit has been read. *)
Fixpoint digits (acc : option Z) (s : string) : option Z :=
  match s with
  | EmptyString => acc
  | String c rest =>
      match digit c with
      | Some d => digits (Some (10 * default 0 acc + d)) rest
      | None => acc
      end
  end.

(** [parseInt(s, 10)]; [None] is [NaN]. With radix 10 no [0x] prefix is
    recognised. *)
Definition parseInt10 (s : string) : option Z :=
  match trimStart s with
  | String "-" body => Z.opp <$> digits None body
  | String "+" body => digits None body
  | body => digits None body
  end.

(** [String(n)] for an integer [n]. *)
Definition showZ (n : Z) : string :=
  NilZero.string_of_int (Z.to_int n).

End Js.

(* ===================================================================== *)
(** ** [Map<string, V>]: a finite map that remembers insertion order      *)
(* ===================================================================== *)

Module JsMap.

Definition t (V : Type) : Type := list (string * V).

Section Ops.
Context {V : Type}.

Definition empty : t V := [].

(** [m.get(k)] *)
Fixpoint get (k : string) (m : t V) : option V :=
  match m with
  | [] => None
  | (k', v) :: m' => if String.eqb k k' then Some v else get k m'
  end.

(** [m.set(k, v)]: an existing key keeps its place, a new key goes
    last. *)
Fixpoint set (k : string) (v : V) (m : t V) : t V :=
  match m with
  | [] => [(k, v)]
  | (k', v') :: m' =>
      if String.eqb k k' then (k, v) :: m' else (k', v') :: set k v m'
  end.

(** [m.delete(k)] *)
Fixpoint delete (k : string) (m : t V) : t V :=
  match m with
  | [] => []
  | (k', v') :: m' =>
      if String.eqb k k' then delete k m' else (k', v') :: delete k m'
  end.

(** [m.size] *)
Definition size (m : t V) : nat := length m.

(** [m.entries()], in insertion order *)
Definition entries (m : t V) : list (string * V) := m.

(** No key is listed twice: what [set] and [delete] maintain. *)
Fixpoint uniq (m : t V) : Prop :=
  match m with
  | [] => True
  | (k, _) :: m' => get k m' = None ∧ uniq m'
  end.

End Ops.

Arguments empty {V}.

End JsMap.

(* ===================================================================== *)
(** ** Data model                                                         *)
(* ===================================================================== *)

Import Js.

(** [errors/AppError]: an [Error] with a numeric [code]. *)
Module AppError.
Record t : Type := mk { code : Z; message : string }.
End AppError.

(** [types/faceMessaging.types.ts], [BaseResponse]. [rest] holds the fields
    a concrete response type adds ([messageType], [data], ...). *)
Module BaseResponse.
Record error_t : Type := mkError {
  code : string;
  message : string;
  details : option (list (string * Json))
}.
Record t : Type := mk {
  requestId : string;
  timestamp : string;
  success : bool;
  error : option error_t;
  rest : list (string * Json)
}.

Definition errorObject (e : error_t) : Json :=
  JObj ([("code", JStr (code e)); ("message", JStr (message e))]
          ++ match details e with
             | Some d => [("details", JObj d)]
             | None => []
             end).

(** The response as the JavaScript object the consumer hands over. *)
Definition toObject (r : t) : Json :=
  JObj ([("requestId", JStr (requestId r));
         ("timestamp", JStr (timestamp r));
         ("success", JBool (success r))]
          ++ match error r with
             | Some e => [("error", errorObject e)]
             | None => []
             end
          ++ rest r).

(** [response.data] *)
Definition data (r : t) : option Json := JsMap.get "data" (rest r).
End BaseResponse.

(** A promise is settled at most once; [resolve] and [reject] of a settled
    promise do nothing. Promises live in a table and are named by their
    index. *)
Inductive PromiseState : Type :=
| Pending
| Fulfilled (value : BaseResponse.t)
| Rejected (reason : AppError.t).

(** The [PendingRequest] interface. [resolve] and [reject] are the two
    resolving functions of the promise created in [sendRequest]; each is
    represented by the promise it settles. [timeout] is the handle returned
    by [setTimeout]. *)
Module PendingRequest.
Record t : Type := mk {
  resolve : nat;
  reject : nat;
  timeout : nat;
  requestId : string;
  requestedAt : Z
}.
End PendingRequest.

(** The closure passed to [setTimeout] in [sendRequest], by the variables it
    captures, and an armed timer. *)
Record TimeoutCallback : Type := mkCallback {
  cb_requestId : string;
  cb_reject : nat;
  cb_timeout : Z
}.

Record Timer : Type := mkTimer { due : Z; callback : TimeoutCallback }.

(** How a call ends: it returns a value or it throws. Calls into the
    transport throw an error, kept here by its rendering [String(error)];
    the service throws [AppError]s. *)
Inductive Completion (E A : Type) : Type :=
| Return (a : A)
| Throw (e : E).
Arguments Return {E A} a.
Arguments Throw {E A} e.

(** Effects visible outside the service, in the order they happen: lines
    on the console and calls into the transport, each call with the way it
    ended. *)
Inductive Effect : Type :=
| ConsoleLog (line : string)
| ConsoleWarn (line : string)
| ConsoleError (line : string)
| AssertQueue (queue : string) (exclusive durable autoDelete : bool)
              (outcome : Completion string ())
| Consume (queue : string) (noAck : bool) (outcome : Completion string ())
| Publish (exchange routingKey : string) (message : Json)
          (outcome : Completion string bool).

(** The fields of the class, followed by the run time it executes in: the
    promise table, the timer table, the clock and the effect history. *)
Record State : Type := mkState {
  pendingRequests : JsMap.t PendingRequest.t;
  replyQueue : string;
  isInitialized : bool;
  promises : gmap nat PromiseState;
  nextPromise : nat;
  timers : gmap nat Timer;
  nextTimer : nat;
  now : Z;
  trace : list Effect
}.

Definition with_pendingRequests
    (f : JsMap.t PendingRequest.t → JsMap.t PendingRequest.t) (s : State) : State :=
  mkState (f (pendingRequests s)) (replyQueue s) (isInitialized s)
          (promises s) (nextPromise s) (timers s) (nextTimer s) (now s) (trace s).

Definition with_isInitialized (b : bool) (s : State) : State :=
  mkState (pendingRequests s) (replyQueue s) b
          (promises s) (nextPromise s) (timers s) (nextTimer s) (now s) (trace s).

Definition with_promises
    (f : gmap nat PromiseState → gmap nat PromiseState) (s : State) : State :=
  mkState (pendingRequests s) (replyQueue s) (isInitialized s)
          (f (promises s)) (nextPromise s) (timers s) (nextTimer s) (now s) (trace s).

Definition with_timers (f : gmap nat Timer → gmap nat Timer) (s : State) : State :=
  mkState (pendingRequests s) (replyQueue s) (isInitialized s)
          (promises s) (nextPromise s) (f (timers s)) (nextTimer s) (now s) (trace s).

Definition with_now (t : Z) (s : State) : State :=
  mkState (pendingRequests s) (replyQueue s) (isInitialized s)
          (promises s) (nextPromise s) (timers s) (nextTimer s) t (trace s).

(** [emit e] appends one effect to the history. *)
Definition emit (e : Effect) (s : State) : State :=
  mkState (pendingRequests s) (replyQueue s) (isInitialized s)
          (promises s) (nextPromise s) (timers s) (nextTimer s) (now s)
          (trace s ++ [e]).

(* ===================================================================== *)
(** ** Run-time primitives                                                *)
(* ===================================================================== *)

(** [new Promise(...)]: a fresh pending promise. *)
Definition newPromise (s : State) : nat * State :=
  let p := nextPromise s in
  (p, mkState (pendingRequests s) (replyQueue s) (isInitialized s)
              (<[p := Pending]> (promises s)) (S p)
              (timers s) (nextTimer s) (now s) (trace s)).

(** Settling: only a pending promise changes state. *)
Definition settle (p : nat) (st : PromiseState) (s : State) : State :=
  match promises s !! p with
  | Some Pending => with_promises (<[p := st]>) s
  | _ => s
  end.

Definition resolvePromise (p : nat) (v : BaseResponse.t) : State → State :=
  settle p (Fulfilled v).

Definition rejectPromise (p : nat) (e : AppError.t) : State → State :=
  settle p (Rejected e).

(** The longest delay a Node.js timer takes, in milliseconds: 2^31-1. *)
Definition TIMEOUT_MAX : Z := 2147483647.

(** The delay a timer is armed with: Node.js sets a [delay] that is not
    between 1 and [TIMEOUT_MAX] to 1. *)
Definition timerDelay (delay : Z) : Z :=
  if (1 <=? delay) && (delay <=? TIMEOUT_MAX) then delay else 1.

(** [setTimeout(cb, delay)]: the timer facility runs [cb] once the clock
    has reached [now + timerDelay delay]. *)
Definition setTimeout (cb : TimeoutCallback) (delay : Z) (s : State) : nat * State :=
  let h := nextTimer s in
  (h, mkState (pendingRequests s) (replyQueue s) (isInitialized s)
              (promises s) (nextPromise s)
              (<[h := mkTimer (now s + timerDelay delay) cb]> (timers s)) (S h)
              (now s) (trace s)).

(** [clearTimeout(h)] *)
Definition clearTimeout (h : nat) : State → State :=
  with_timers (delete h).

Definition showBool (b : bool) : string := if b then "true" else "false".

(** [new RabbitMQRequestReplyService(replyQueue = 'face.replies')], created
    when the clock shows [clock]. *)
Definition create (queue : option string) (clock : Z) : State :=
  mkState JsMap.empty (default "face.replies" queue) false ∅ 0%nat ∅ 0%nat clock [].

(* ===================================================================== *)
(** ** The service                                                        *)
(* ===================================================================== *)

(** What the environment supplies is passed in: the outcome of each call
    into [rabbitMQ], the identifier drawn by [uuidv4()] and the time stamp
    [new Date().toISOString()]. *)

(** [initialize()] *)
Definition initialize (assertQueue consume : Completion string ())
    (s : State) : Completion string () * State :=
  if isInitialized s then
    (Return (), emit (ConsoleLog "⚠️ RabbitMQRequestReplyService já inicializado") s)
  else
    let s := emit (AssertQueue (replyQueue s) false false true assertQueue) s in
    match assertQueue with
    | Throw error =>
        (Throw error,
         emit (ConsoleError ("❌ Erro ao inicializar RabbitMQRequestReplyService: " ++ error)) s)
    | Return _ =>
        let s := emit (Consume (replyQueue s) true consume) s in
        match consume with
        | Throw error =>
            (Throw error,
             emit (ConsoleError ("❌ Erro ao inicializar RabbitMQRequestReplyService: " ++ error)) s)
        | Return _ =>
            let s := with_isInitialized true s in
            (Return (),
             emit (ConsoleLog ("✅ RabbitMQRequestReplyService inicializado (reply queue: "
                                 ++ replyQueue s ++ ")")) s)
        end
    end.

(** [{ ...request, requestId, timestamp, replyTo: this.replyQueue, timeout }] *)
Definition fullRequest (request : list (string * Json))
    (requestId timestamp replyTo : string) (timeout : Z) : Json :=
  JObj (JsMap.set "timeout" (JNum (inject_Z timeout))
         (JsMap.set "replyTo" (JStr replyTo)
           (JsMap.set "timestamp" (JStr timestamp)
             (JsMap.set "requestId" (JStr requestId) request)))).

(** The body of the timer armed by [sendRequest]. *)
Definition timeoutError (cb : TimeoutCallback) : AppError.t :=
  AppError.mk 504
    ("Request timeout after " ++ showZ (cb_timeout cb)
       ++ "ms (requestId: " ++ cb_requestId cb ++ ")").

Definition timeoutCallback (cb : TimeoutCallback) (s : State) : State :=
  let s := with_pendingRequests (JsMap.delete (cb_requestId cb)) s in
  rejectPromise (cb_reject cb) (timeoutError cb) s.

(** The executor of [responsePromise]: arm the timer, then store the
    callbacks under [requestId]. *)
Definition register (requestId : string) (timeout : Z) (s : State) : nat * State :=
  let '(responsePromise, s) := newPromise s in
  let '(timeoutHandle, s) :=
    setTimeout (mkCallback requestId responsePromise timeout) timeout s in
  (responsePromise,
   with_pendingRequests
     (JsMap.set requestId
        (PendingRequest.mk responsePromise responsePromise timeoutHandle
                           requestId (now s))) s).

(** [rabbitMQ.publish(exchange, routingKey, message)], with its outcome. *)
Definition rabbitMQ_publish (exchange routingKey : string) (message : Json)
    (outcome : Completion string bool) (s : State) : State :=
  emit (Publish exchange routingKey message outcome) s.

(** [sendRequest] once [await rabbitMQ.publish(...)] has settled. *)
Definition afterPublish (queue requestId : string) (responsePromise : nat)
    (outcome : Completion string bool) (s : State) : Completion AppError.t nat * State :=
  match outcome with
  | Return _ =>
      (Return responsePromise,
       emit (ConsoleLog ("📤 Request enviada: " ++ queue
                           ++ " (requestId: " ++ requestId ++ ")")) s)
  | Throw error =>
      let s :=
        match JsMap.get requestId (pendingRequests s) with
        | Some pending =>
            let s := clearTimeout (PendingRequest.timeout pending) s in
            with_pendingRequests (JsMap.delete requestId) s
        | None => s
        end in
      (Throw (AppError.mk 503 ("Falha ao enviar request para " ++ queue ++ ": " ++ error)), s)
  end.

Definition notInitialized : AppError.t :=
  AppError.mk 500 "RabbitMQRequestReplyService não inicializado".

(** [sendRequest(queue, request, timeout = 30000)]. [Return p] stands for
    [return responsePromise]: the call settles as promise [p] does. *)
Definition sendRequest (queue : string) (request : list (string * Json))
    (timeout : option Z) (uuid timestamp : string)
    (publish : Completion string bool) (s : State) : Completion AppError.t nat * State :=
  let timeout := default 30000 timeout in
  if negb (isInitialized s) then (Throw notInitialized, s)
  else
    let requestId := uuid in
    let message := fullRequest request requestId timestamp (replyQueue s) timeout in
    let '(responsePromise, s) := register requestId timeout s in
    let s := rabbitMQ_publish "" queue message publish s in
    afterPublish queue requestId responsePromise publish s.



(** The error a failed response is turned into. *)
Definition remoteError (error : option BaseResponse.error_t) : AppError.t :=
  let errorMessage :=
    str_or (BaseResponse.message <$> error) "Face recognition service error" in
  let errorCode := str_or (BaseResponse.code <$> error) "500" in
  AppError.mk (num_or (parseInt10 errorCode) 500) errorMessage.

(** [handleResponse(response)], the consumer of the reply queue. *)
Definition handleResponse (response : BaseResponse.t) (s : State) : State :=
  let requestId := BaseResponse.requestId response in
  let success := BaseResponse.success response in
  let error := BaseResponse.error response in
  let s := emit (ConsoleLog ("📥 Response recebida (requestId: " ++ requestId
                               ++ ", success: " ++ showBool success ++ ")")) s in
  match JsMap.get requestId (pendingRequests s) with
  | None =>
      emit (ConsoleWarn ("⚠️ Resposta recebida para requestId desconhecido: "
                           ++ requestId)) s
  | Some pending =>
      let s := clearTimeout (PendingRequest.timeout pending) s in
      let s := with_pendingRequests (JsMap.delete requestId) s in
      let responseTime := now s - PendingRequest.requestedAt pending in
      let s := emit (ConsoleLog ("⏱️ Response time: " ++ showZ responseTime
                                   ++ "ms (requestId: " ++ requestId ++ ")")) s in
      if success then resolvePromise (PendingRequest.resolve pending) response s
      else rejectPromise (PendingRequest.reject pending) (remoteError error) s
  end.

Definition shuttingDown : AppError.t := AppError.mk 503 "Service shutting down".

(** One turn of the loop in [cleanup]. *)
Definition cleanupEntry (s : State) (entry : string * PendingRequest.t) : State :=
  let '(requestId, pending) := entry in
  let s := clearTimeout (PendingRequest.timeout pending) s in
  let s := rejectPromise (PendingRequest.reject pending) shuttingDown s in
  with_pendingRequests (JsMap.delete requestId) s.

(** [cleanup()]. Every entry met by the iterator is deleted in its own
    turn, so the loop visits exactly the entries present on entry. *)
Definition cleanup (s : State) : State :=
  let s := emit (ConsoleLog ("🧹 Limpando "
                               ++ showZ (Z.of_nat (JsMap.size (pendingRequests s)))
                               ++ " requests pendentes...")) s in
  let s := fold_left cleanupEntry (JsMap.entries (pendingRequests s)) s in
  let s := with_isInitialized false s in
  emit (ConsoleLog "✅ RabbitMQRequestReplyService cleanup concluído") s.

Record Stats : Type := mkStats {
  stats_pendingRequests : nat;
  stats_isInitialized : bool;
  stats_replyQueue : string
}.

(** [getStats()] *)
Definition getStats (s : State) : Stats :=
  mkStats (JsMap.size (pendingRequests s)) (isInitialized s) (replyQueue s).

(* ===================================================================== *)
(** ** The event loop                                                     *)
(* ===================================================================== *)

(** A timer that comes due runs its callback once and is gone. *)
Definition fire (h : nat) (s : State) : State :=
  match timers s !! h with
  | Some tm => timeoutCallback (callback tm) (with_timers (delete h) s)
  | None => s
  end.

(** Timers run in the order of their due times, and in the order they were
    armed when those agree. *)
Definition earlier (a b : nat * Timer) : Prop :=
  due a.2 < due b.2 ∨ (due a.2 = due b.2 ∧ (a.1 ≤ b.1)%nat).

#[local] Instance earlier_dec a b : Decision (earlier a b).
Proof. unfold earlier. apply _. Defined.

Definition dueTimers (t : Z) (s : State) : list (nat * Timer) :=
  merge_sort earlier (filter (λ ht, due ht.2 ≤ t) (map_to_list (timers s))).

(** The clock moves to [t]; every timer due by then fires on the way. The
    clock never runs backwards. *)
Definition advanceTo (t : Z) (s : State) : State :=
  if t <? now s then s
  else with_now t (fold_left (λ s ht, fire ht.1 s) (dueTimers t s) s).

(** What can happen to the service, one callback at a time. *)
Inductive Event : Type :=
| Initialize (assertQueue consume : Completion string ())
| SendRequest (queue : string) (request : list (string * Json))
              (timeout : option Z) (uuid timestamp : string)
              (publish : Completion string bool)
| Deliver (response : BaseResponse.t)
| Tick (t : Z)
| Cleanup.

Definition step (s : State) (ev : Event) : State :=
  match ev with
  | Initialize aq cs => (initialize aq cs s).2
  | SendRequest queue request timeout uuid timestamp publish =>
      (sendRequest queue request timeout uuid timestamp publish s).2
  | Deliver response => handleResponse response s
  | Tick t => advanceTo t s
  | Cleanup => cleanup s
  end.

Definition run (evs : list Event) (s : State) : State := fold_left step evs s.

(** A small scenario to exercise the definitions: the service is started,
    requests are sent, replies come in. *)
Definition demoPayload : Json :=
  JObj [("verified", JBool true); ("confidence", JNum (93 # 100))].

Definition demoReply : BaseResponse.t :=
  BaseResponse.mk "id-1" "2025-01-01T00:00:00.050Z" true None [("data", demoPayload)].

Definition demoFailure (code : string) (message : string) : BaseResponse.t :=
  BaseResponse.mk "id-1" "2025-01-01T00:00:00.050Z" false
    (Some (BaseResponse.mkError code message None)) [].

Definition demoRequest (uuid : string) (publish : Completion string bool) : Event :=
  SendRequest "face.verification.requests" [("userId", JStr "u1")] (Some 1000)
              uuid "2025-01-01T00:00:00.000Z" publish.

Definition demoStart : State :=
  run [Initialize (Return ()) (Return ())] (create None 0).

Definition demoSend : Completion AppError.t nat * State :=
  sendRequest "face.verification.requests" [("userId", JStr "u1")] (Some 1000)
              "id-1" "2025-01-01T00:00:00.000Z" (Return true) demoStart.

Definition demoRequestWith (timeout : option Z) : Completion AppError.t nat * State :=
  sendRequest "face.verification.requests" [("userId", JStr "u1")] timeout
              "id-1" "2025-01-01T00:00:00.000Z" (Return true) demoStart.

Definition demoThree : State :=
  run [Initialize (Return ()) (Return ());
       demoRequest "id-1" (Return true);
       demoRequest "id-2" (Return true);
       demoRequest "id-3" (Return false)] (create None 0).

(* ===================================================================== *)
(** ** Reachable states and the invariant they satisfy                    *)
(* ===================================================================== *)

(** [uuidv4()] is taken to return an identifier that no live entry uses;
    the service itself never checks. An event is admissible when it
    respects that. *)
Definition admissible (s : State) (ev : Event) : bool :=
  match ev with
  | SendRequest _ _ _ uuid _ _ =>
      match JsMap.get uuid (pendingRequests s) with
      | Some _ => negb (isInitialized s)
      | None => true
      end
  | _ => true
  end.

Fixpoint admissibleRun (evs : list Event) (s : State) : bool :=
  match evs with
  | [] => true
  | ev :: evs' => admissible s ev && admissibleRun evs' (step s ev)
  end.

(** The states the service can be in between two callbacks. *)
Definition Reachable (s : State) : Prop :=
  ∃ queue clock evs,
    admissibleRun evs (create queue clock) = true ∧ run evs (create queue clock) = s.

(** The call whose promise is [p] is registered under [id]. *)
Definition registeredCall (s : State) (id : string) (p : nat) : Prop :=
  ∃ pending,
    JsMap.get id (pendingRequests s) = Some pending
    ∧ PendingRequest.resolve pending = p
    ∧ PendingRequest.reject pending = p.


(** The three ways a reply can find its identifier missing. *)
Inductive NotRegistered (id : string) : State → Prop :=
| never_registered s :
    JsMap.get id (pendingRequests s) = None → NotRegistered id s
| already_resolved s response :
    BaseResponse.requestId response = id → NotRegistered id (handleResponse response s)
| already_timed_out s h tm :
    timers s !! h = Some tm → cb_requestId (callback tm) = id →
    NotRegistered id (fire h s).

(** What [handleResponse] does for an unknown identifier: two lines on the
    console. *)
Definition ignored (response : BaseResponse.t) (s : State) : State :=
  let requestId := BaseResponse.requestId response in
  emit (ConsoleWarn ("⚠️ Resposta recebida para requestId desconhecido: " ++ requestId))
    (emit (ConsoleLog ("📥 Response recebida (requestId: " ++ requestId
                         ++ ", success: " ++ showBool (BaseResponse.success response) ++ ")")) s).

(** The invariant: every entry holds the two resolving functions of one
    pending promise and the handle of its own armed timer, due [timeout]
    after registration; every armed timer belongs to an entry; entries do
    not share promises; fresh indices are fresh. *)
Record wf (s : State) : Prop := mkWf {
  wf_uniq : JsMap.uniq (pendingRequests s);
  wf_entry : ∀ id pending,
    JsMap.get id (pendingRequests s) = Some pending →
    PendingRequest.requestId pending = id
    ∧ PendingRequest.resolve pending = PendingRequest.reject pending
    ∧ promises s !! PendingRequest.reject pending = Some Pending
    ∧ ∃ tm, timers s !! PendingRequest.timeout pending = Some tm
            ∧ cb_requestId (callback tm) = id
            ∧ cb_reject (callback tm) = PendingRequest.reject pending
            ∧ due tm = PendingRequest.requestedAt pending
                       + timerDelay (cb_timeout (callback tm));
  wf_timer : ∀ h tm,
    timers s !! h = Some tm →
    ∃ pending,
      JsMap.get (cb_requestId (callback tm)) (pendingRequests s) = Some pending
      ∧ PendingRequest.timeout pending = h;
  wf_promise_inj : ∀ id1 id2 pending1 pending2,
    JsMap.get id1 (pendingRequests s) = Some pending1 →
    JsMap.get id2 (pendingRequests s) = Some pending2 →
    PendingRequest.reject pending1 = PendingRequest.reject pending2 →
    id1 = id2;
  wf_next_promise : ∀ p, is_Some (promises s !! p) → (p < nextPromise s)%nat;
  wf_next_timer : ∀ h, is_Some (timers s !! h) → (h < nextTimer s)%nat
}.

(** [Ended s s' id pending st]: from [s] to [s'] the call registered as
    [pending] under [id] has ended: its entry is deleted, its timer is gone
    and its promise has been settled as [st]; the console apart, nothing
    else has changed. *)
Record Ended (s s' : State) (id : string) (pending : PendingRequest.t)
    (st : PromiseState) : Prop := mkEnded {
  ended_pendingRequests : pendingRequests s' = JsMap.delete id (pendingRequests s);
  ended_timers : timers s' = delete (PendingRequest.timeout pending) (timers s);
  ended_promises : promises s' = <[PendingRequest.reject pending := st]> (promises s);
  ended_nextPromise : nextPromise s' = nextPromise s;
  ended_nextTimer : nextTimer s' = nextTimer s;
  ended_now : now s' = now s;
  ended_isInitialized : isInitialized s' = isInitialized s;
  ended_replyQueue : replyQueue s' = replyQueue s
}.

(** No entry of the registry holds the resolving functions of promise [p]. *)
Definition unreferenced (p : nat) (s : State) : Prop :=
  ∀ id pending,
    JsMap.get id (pendingRequests s) = Some pending →
    PendingRequest.reject pending ≠ p.

(** Two states that differ in their effect history at most. *)
Definition agree (s s' : State) : Prop :=
  pendingRequests s = pendingRequests s'
  ∧ replyQueue s = replyQueue s'
  ∧ isInitialized s = isInitialized s'
  ∧ promises s = promises s'
  ∧ nextPromise s = nextPromise s'
  ∧ timers s = timers s'
  ∧ nextTimer s = nextTimer s'
  ∧ now s = now s'.

(* ===================================================================== *)
(** ** Around the service: the connection and the reply consumer          *)
(* ===================================================================== *)

(** [messaging/RabbitMQConnection.ts]. The amqplib channel is the
    environment: [None] when [connect()] has not set it, otherwise the way
    its calls end. [ack] and [nack] are taken to succeed. *)
Module RabbitMQConnection.

(** [String(new Error(message))] *)
Definition errorString (message : string) : string := "Error: " ++ message.

Definition noChannel : string := errorString "Canal RabbitMQ não inicializado".

(** [assertQueue(queue, options)], [channelAssert] being the way
    [channel.assertQueue] ends. *)
Definition assertQueue (channel : option (Completion string ())) : Completion string () :=
  match channel with
  | None => Throw noChannel
  | Some channelAssert => channelAssert
  end.

(** What the callback of [consume] tells the broker about a message. *)
Inductive ChannelOp : Type :=
| Ack
| Nack (allUpTo requeue : bool).

(** The callback [consume(queue, onMessage, options)] hands to the
    channel, run on one delivery. [msg] is the content of the message
    ([None] for the [null] of a cancelled consumer), [parse] is
    [JSON.parse], [noAck] is [options.noAck]. *)
Definition onDelivery {T : Type} (queue : string) (noAck : option bool)
    (parse : string → Completion string T)
    (onMessage : T → State → Completion string () * State)
    (msg : option string) (s : State) : list ChannelOp * State :=
  let failed error s :=
    ([Nack false false],
     emit (ConsoleError ("❌ Erro ao processar mensagem da queue " ++ queue
                           ++ ": " ++ error)) s) in
  match msg with
  | None => ([], s)
  | Some content =>
      match parse content with
      | Throw error => failed error s
      | Return value =>
          match onMessage value s with
          | (Return _, s) => (if default false noAck then [] else [Ack], s)
          | (Throw error, s) => failed error s
          end
      end
  end.

End RabbitMQConnection.

(** The consumer [initialize] installs on the reply queue:
    [consume(replyQueue, message => handleResponse(message), { noAck: true })]. *)
Definition replyListener (parse : string → Completion string BaseResponse.t)
    (msg : option string) (s : State) : list RabbitMQConnection.ChannelOp * State :=
  RabbitMQConnection.onDelivery (replyQueue s) (Some true) parse
    (λ message s, (Return (), handleResponse message s)) msg s.

(** The calls into the transport among a list of effects. *)
Definition isTransportCall (e : Effect) : bool :=
  match e with
  | AssertQueue _ _ _ _ _ | Consume _ _ _ | Publish _ _ _ _ => true
  | _ => false
  end.

Definition transportCalls (effects : list Effect) : list Effect :=
  List.filter isTransportCall effects.

(** The calls into the transport an event makes, read off the state it
    starts in. *)
Definition callsOf (s : State) (ev : Event) : list Effect :=
  match ev with
  | Initialize assertQueue consume =>
      if isInitialized s then []
      else AssertQueue (replyQueue s) false false true assertQueue
             :: match assertQueue with
                | Return _ => [Consume (replyQueue s) true consume]
                | Throw _ => []
                end
  | SendRequest queue request timeout uuid timestamp publish =>
      if isInitialized s
      then [Publish "" queue
              (fullRequest request uuid timestamp (replyQueue s) (default 30000 timeout))
              publish]
      else []
  | _ => []
  end.

(** How an event moves the [isInitialized] flag. *)
Definition flagAfter (flag : bool) (ev : Event) : bool :=
  match ev with
  | Initialize (Return _) (Return _) => true
  | Cleanup => false
  | _ => flag
  end.

(** What a promise can hold once the service has settled it. *)
Definition settledByService (st : PromiseState) : Prop :=
  match st with
  | Pending => True
  | Fulfilled response => BaseResponse.success response = true
  | Rejected reason =>
      reason = shuttingDown
      ∨ (∃ cb, reason = timeoutError cb)
      ∨ (∃ error, reason = remoteError error)
  end.

Definition settledAll (s : State) : Prop :=
  ∀ p st, promises s !! p = Some st → settledByService st.

(** [object.key] on a JSON object. *)
Definition field (key : string) (object : Json) : option Json :=
  match object with
  | JObj fields => JsMap.get key fields
  | _ => None
  end.

(* ===================================================================== *)
(** ** [AttendanceDiscountService]                                        *)
(* ===================================================================== *)

(** Dates are their time values, in milliseconds; percentages are
    integers, as [calculateTimeBasedDiscount] produces them; amounts of
    money are rationals, where JavaScript has their nearest doubles. The
    code computes with doubles: on valid dates they give the integers
    computed here as long as the difference of two time values stays
    within 2^53. *)
Module AttendanceDiscountService.

(** The time values a [Date] can hold: 8.64e15 ms either side of the
    epoch. *)
Definition validDate (t : Z) : Prop := Z.abs t ≤ 8640000000000000.

Inductive PunchType : Type := IN | OUT.

Module LateDiscountInfo.
Record t : Type := mk {
  isLate : bool;
  lateMinutes : Z;
  shouldApplyDiscount : bool;
  discountPercentage : Z
}.
End LateDiscountInfo.

(** [calculateTimeBasedDiscount(type, timestamp, shiftStart, shiftEnd,
    shiftValue)] *)
Definition calculateTimeBasedDiscount (type : PunchType)
    (timestamp shiftStart shiftEnd : Z) (shiftValue : Q) : LateDiscountInfo.t :=
  let '(isLate, lateMinutes) :=
    match type with
    | IN =>
        if shiftStart <? timestamp
        then (true, (timestamp - shiftStart) / (1000 * 60))
        else (false, 0)
    | OUT =>
        if timestamp <? shiftEnd
        then (true, (shiftEnd - timestamp) / (1000 * 60))
        else (false, 0)
    end in
  let discountPercentage :=
    if isLate && (15 <? lateMinutes)
    then Z.min (lateMinutes / 15 * 1) 50
    else 0 in
  let shouldApplyDiscount := isLate && (0 <? discountPercentage) in
  LateDiscountInfo.mk isLate lateMinutes shouldApplyDiscount discountPercentage.

(** An element of the [attendances] argument. *)
Module Attendance.
Record t : Type := mk {
  id : string;
  type : PunchType;
  discountPercentage : Z;
  approvedWithDiscount : bool
}.
End Attendance.

(** An element of [attendanceDiscounts]. *)
Module AttendanceDiscount.
Record t : Type := mk {
  attendanceId : string;
  type : PunchType;
  discountPercentage : Z;
  applied : bool
}.
End AttendanceDiscount.

Module ShiftDiscountInfo.
Record t : Type := mk {
  originalValue : Q;
  totalDiscountPercentage : Z;
  finalValue : Q;
  attendanceDiscounts : list AttendanceDiscount.t
}.
End ShiftDiscountInfo.

(** One turn of the loop of [calculateShiftDiscountInfo]. *)
Definition addAttendance (acc : Z * list AttendanceDiscount.t) (att : Attendance.t)
    : Z * list AttendanceDiscount.t :=
  let '(totalDiscountPercentage, attendanceDiscounts) := acc in
  let applied :=
    Attendance.approvedWithDiscount att && (0 <? Attendance.discountPercentage att) in
  (if applied
   then totalDiscountPercentage + Attendance.discountPercentage att
   else totalDiscountPercentage,
   (attendanceDiscounts
      ++ [AttendanceDiscount.mk (Attendance.id att) (Attendance.type att)
                                (Attendance.discountPercentage att) applied])%list).

(** [calculateShiftDiscountInfo(originalValue, attendances)] *)
Definition calculateShiftDiscountInfo (originalValue : Q)
    (attendances : list Attendance.t) : ShiftDiscountInfo.t :=
  let '(totalDiscountPercentage, attendanceDiscounts) :=
    fold_left addAttendance attendances (0, []) in
  let totalDiscountPercentage := Z.min totalDiscountPercentage 100 in
  let finalValue :=
    (originalValue * (1 - inject_Z totalDiscountPercentage / 100))%Q in
  ShiftDiscountInfo.mk originalValue totalDiscountPercentage finalValue
                       attendanceDiscounts.

(** The percentages that count towards the total. *)
Definition appliedPercentages (attendances : list Attendance.t) : list Z :=
  Attendance.discountPercentage
    <$> List.filter (λ att, Attendance.approvedWithDiscount att
                            && (0 <? Attendance.discountPercentage att)) attendances.

Definition sumZ (l : list Z) : Z := fold_right Z.add 0 l.

(** How far, in milliseconds, a punch is on the wrong side of the hour it
    is measured against: after the start for [IN], before the end for
    [OUT]. *)
Definition lateness (type : PunchType) (timestamp shiftStart shiftEnd : Z) : Z :=
  match type with
  | IN => timestamp - shiftStart
  | OUT => shiftEnd - timestamp
  end.

(** The element of [attendanceDiscounts] an attendance gives rise to. *)
Definition discountOf (att : Attendance.t) : AttendanceDiscount.t :=
  AttendanceDiscount.mk (Attendance.id att) (Attendance.type att)
    (Attendance.discountPercentage att)
    (Attendance.approvedWithDiscount att && (0 <? Attendance.discountPercentage att)).

End AttendanceDiscountService.

(* ===================================================================== *)
(** * Facts                                                               *)
(* ===================================================================== *)

Example parseInt_404 : Js.parseInt10 "404" = Some 404.
Proof. reflexivity. Qed.

Example parseInt_blank_signed : Js.parseInt10 "  -12px" = Some (-12).
Proof. reflexivity. Qed.

Example parseInt_not_a_number : Js.parseInt10 "E_NO_FACE" = None.
Proof. reflexivity. Qed.

Example parseInt_hex_prefix : Js.parseInt10 "0x1F" = Some 0.
Proof. reflexivity. Qed.

Example showZ_30000 : Js.showZ 30000 = "30000".
Proof. reflexivity. Qed.

(** ** Insertion-ordered maps *)

Section JsMapFacts.
Context {V : Type}.
Implicit Types (m : JsMap.t V) (k : string) (v : V).
Import JsMap.

Lemma get_set_eq k v m : get k (set k v m) = Some v.
Proof.
  induction m as [|[k' v'] m IH]; simpl.
  - by rewrite String.eqb_refl.
  - destruct (String.eqb k k') eqn:E; simpl.
    + by rewrite String.eqb_refl.
    + by rewrite E.
Qed.

Lemma get_set_ne k k' v m : k ≠ k' → get k' (set k v m) = get k' m.
Proof.
  intros Hne. induction m as [|[k0 v0] m IH]; simpl.
  - destruct (String.eqb k' k) eqn:E; [|done].
    apply String.eqb_eq in E. congruence.
  - destruct (String.eqb k k0) eqn:E; simpl.
    + apply String.eqb_eq in E. subst k0.
      destruct (String.eqb k' k) eqn:E'; [|done].
      apply String.eqb_eq in E'. congruence.
    + by rewrite IH.
Qed.

Lemma get_delete_eq k m : get k (delete k m) = None.
Proof.
  induction m as [|[k' v'] m IH]; simpl; [done|].
  destruct (String.eqb k k') eqn:E; simpl; [done|]. by rewrite E.
Qed.

Lemma get_delete_ne k k' m : k ≠ k' → get k' (delete k m) = get k' m.
Proof.
  intros Hne. induction m as [|[k0 v0] m IH]; simpl; [done|].
  destruct (String.eqb k k0) eqn:E; simpl.
  - apply String.eqb_eq in E. subst k0.
    destruct (String.eqb k' k) eqn:E'; [|done].
    apply String.eqb_eq in E'. congruence.
  - by rewrite IH.
Qed.

Lemma get_delete_None k k' m : get k' m = None → get k' (delete k m) = None.
Proof.
  intros H. destruct (decide (k = k')) as [->|Hne].
  - apply get_delete_eq.
  - by rewrite get_delete_ne.
Qed.

Lemma delete_absent k m : get k m = None → delete k m = m.
Proof.
  induction m as [|[k' v'] m IH]; simpl; [done|].
  destruct (String.eqb k k'); [done|]. intros H. by rewrite IH.
Qed.

(** Adding a fresh key and deleting it again restores the map, order
    included. *)
Lemma delete_set_fresh k v m : get k m = None → delete k (set k v m) = m.
Proof.
  induction m as [|[k' v'] m IH]; simpl.
  - by rewrite String.eqb_refl.
  - destruct (String.eqb k k') eqn:E; [done|]. simpl. rewrite E.
    intros H. by rewrite IH.
Qed.

Lemma size_set_fresh k v m : get k m = None → size (set k v m) = S (size m).
Proof.
  unfold size. induction m as [|[k' v'] m IH]; simpl; [done|].
  destruct (String.eqb k k'); [done|]. simpl. intros H. by rewrite IH.
Qed.

Lemma get_Some_elem k v m : get k m = Some v → (k, v) ∈ entries m.
Proof.
  unfold entries. induction m as [|[k' v'] m IH]; simpl; [done|].
  destruct (String.eqb k k') eqn:E.
  - apply String.eqb_eq in E. intros [= ->]. subst. by left.
  - intros H. right. by apply IH.
Qed.

Lemma get_None_not_elem k v m : get k m = None → (k, v) ∉ entries m.
Proof.
  unfold entries. induction m as [|[k' v'] m IH]; simpl.
  - intros _ ?%elem_of_nil. done.
  - destruct (String.eqb k k') eqn:E; [done|].
    intros H [[= -> ->]|Hin]%elem_of_cons.
    + by rewrite String.eqb_refl in E.
    + by apply IH.
Qed.

Lemma size_set_present k v v' m :
  get k m = Some v' → size (set k v m) = size m.
Proof.
  unfold size. induction m as [|[k0 v0] m IH]; simpl; [done|].
  destruct (String.eqb k k0); [done|]. simpl. intros H. by rewrite IH.
Qed.

Lemma uniq_set k v m : uniq m → uniq (set k v m).
Proof.
  induction m as [|[k0 v0] m IH]; simpl; [done|].
  intros [H0 Hm]. destruct (String.eqb k k0) eqn:E; simpl.
  - apply String.eqb_eq in E. by subst k0.
  - split; [|by apply IH]. rewrite get_set_ne; [done|].
    intros ->. by rewrite String.eqb_refl in E.
Qed.

Lemma uniq_delete k m : uniq m → uniq (delete k m).
Proof.
  induction m as [|[k0 v0] m IH]; simpl; [done|].
  intros [H0 Hm]. destruct (String.eqb k k0) eqn:E; simpl; [by apply IH|].
  split; [|by apply IH]. rewrite get_delete_ne; [done|].
  intros ->. by rewrite String.eqb_refl in E.
Qed.

Lemma uniq_elem_get k v m : uniq m → (k, v) ∈ entries m → get k m = Some v.
Proof.
  unfold entries. induction m as [|[k0 v0] m IH]; simpl.
  - by intros _ ?%elem_of_nil.
  - intros [H0 Hm] [[= -> ->]|Hin]%elem_of_cons.
    + by rewrite String.eqb_refl.
    + destruct (String.eqb k k0) eqn:E; [|by apply IH].
      apply String.eqb_eq in E. subst k0.
      exfalso. by apply (get_None_not_elem _ v _ H0).
Qed.

(** Deleting the first entry of a map leaves the rest of the list. *)
Lemma delete_head k v m : uniq ((k, v) :: m) → delete k ((k, v) :: m) = m.
Proof.
  simpl. intros [H0 _]. rewrite String.eqb_refl. by apply delete_absent.
Qed.

End JsMapFacts.

(** ** The scenario *)

Example demo_registered :
  demoSend.1 = Return 0%nat ∧ JsMap.size (pendingRequests demoSend.2) = 1%nat.
Proof. by vm_compute. Qed.

Example demo_resolved :
  promises (run [Tick 50; Deliver demoReply; Tick 5000] demoSend.2) !! 0%nat
  = Some (Fulfilled demoReply).
Proof. by vm_compute. Qed.

Example demo_timed_out :
  promises (run [Tick 999; Tick 1000; Deliver demoReply] demoSend.2) !! 0%nat
  = Some (Rejected (AppError.mk 504 "Request timeout after 1000ms (requestId: id-1)")).
Proof. by vm_compute. Qed.

(** ** Promises settle once *)

Ltac settle_cases :=
  unfold resolvePromise, rejectPromise, settle;
  match goal with
  | |- context [match promises ?s !! ?p with _ => _ end] =>
      destruct (promises s !! p) as [[| |]|] eqn:?
  end.

Lemma settle_pendingRequests p st s :
  pendingRequests (settle p st s) = pendingRequests s.
Proof. by settle_cases. Qed.

Lemma settle_timers p st s : timers (settle p st s) = timers s.
Proof. by settle_cases. Qed.

Lemma settle_now p st s : now (settle p st s) = now s.
Proof. by settle_cases. Qed.

Lemma settle_isInitialized p st s : isInitialized (settle p st s) = isInitialized s.
Proof. by settle_cases. Qed.

Lemma settle_replyQueue p st s : replyQueue (settle p st s) = replyQueue s.
Proof. by settle_cases. Qed.

Lemma settle_nextPromise p st s : nextPromise (settle p st s) = nextPromise s.
Proof. by settle_cases. Qed.

Lemma settle_nextTimer p st s : nextTimer (settle p st s) = nextTimer s.
Proof. by settle_cases. Qed.

Lemma settle_trace p st s : trace (settle p st s) = trace s.
Proof. by settle_cases. Qed.

Create Rewrite HintDb fields.
#[local] Hint Rewrite settle_pendingRequests settle_timers settle_now
  settle_isInitialized settle_replyQueue settle_nextPromise settle_nextTimer
  settle_trace : fields.

(** Project a field out of a composition of primitives. *)
Ltac fields :=
  unfold resolvePromise, rejectPromise, clearTimeout in *;
  repeat (autorewrite with fields in *; simpl in * ).

Lemma settle_pending p st s :
  promises s !! p = Some Pending →
  promises (settle p st s) = <[p := st]> (promises s).
Proof. intros H. unfold settle. by rewrite H. Qed.

Lemma settle_other p st s q :
  q ≠ p → promises (settle p st s) !! q = promises s !! q.
Proof. intros Hne. settle_cases; simpl; [|done..]. by rewrite lookup_insert_ne. Qed.

(** A settled promise is never settled again. *)
Lemma settle_final p st s q st0 :
  promises s !! q = Some st0 → st0 ≠ Pending →
  promises (settle p st s) !! q = Some st0.
Proof.
  intros Hq Hst. destruct (decide (q = p)) as [->|Hne].
  - unfold settle. rewrite Hq. by destruct st0.
  - by rewrite settle_other.
Qed.

(** ** Ending a call *)

Section Ended.
Context (s s' : State) (id : string) (pending : PendingRequest.t) (st : PromiseState).
Hypothesis Hwf : wf s.
Hypothesis Hget : JsMap.get id (pendingRequests s) = Some pending.
Hypothesis Hend : Ended s s' id pending st.

Lemma ended_gone :
  JsMap.get id (pendingRequests s') = None
  ∧ timers s' !! PendingRequest.timeout pending = None
  ∧ promises s' !! PendingRequest.reject pending = Some st.
Proof.
  destruct Hend as [-> -> -> _ _ _ _ _].
  by rewrite get_delete_eq, lookup_delete_eq, lookup_insert_eq.
Qed.

(** Every other entry, with its promise and its timer, is as before. *)
Lemma ended_other id' pending' :
  id' ≠ id →
  JsMap.get id' (pendingRequests s) = Some pending' →
  JsMap.get id' (pendingRequests s') = Some pending'
  ∧ promises s' !! PendingRequest.reject pending'
    = promises s !! PendingRequest.reject pending'
  ∧ timers s' !! PendingRequest.timeout pending'
    = timers s !! PendingRequest.timeout pending'.
Proof.
  intros Hne Hget'. destruct Hend as [-> -> -> _ _ _ _ _].
  split; [by rewrite get_delete_ne|]. split.
  - rewrite lookup_insert_ne; [done|]. intros Heq.
    by pose proof (wf_promise_inj _ Hwf _ _ _ _ Hget Hget' Heq).
  - rewrite lookup_delete_ne; [done|]. intros Heq.
    destruct (wf_entry _ Hwf _ _ Hget) as (_ & _ & _ & tm & Htm & Hid & _).
    destruct (wf_entry _ Hwf _ _ Hget') as (_ & _ & _ & tm' & Htm' & Hid' & _).
    rewrite Heq in Htm. congruence.
Qed.

Lemma ended_get id' pending' :
  JsMap.get id' (pendingRequests s') = Some pending' →
  id' ≠ id ∧ JsMap.get id' (pendingRequests s) = Some pending'.
Proof.
  rewrite (ended_pendingRequests _ _ _ _ _ Hend). intros H.
  destruct (decide (id' = id)) as [->|Hne].
  - by rewrite get_delete_eq in H.
  - by rewrite get_delete_ne in H.
Qed.

Lemma ended_wf : wf s'.
Proof.
  split.
  - rewrite (ended_pendingRequests _ _ _ _ _ Hend).
    apply uniq_delete, Hwf.
  - intros id' pending' [Hne Hget']%ended_get.
    destruct (ended_other _ _ Hne Hget') as (_ & -> & ->).
    by apply Hwf.
  - intros h tm. rewrite (ended_timers _ _ _ _ _ Hend).
    intros [Hne Htm]%lookup_delete_Some.
    destruct (wf_timer _ Hwf _ _ Htm) as (pending' & Hget' & Hh).
    exists pending'. split; [|done].
    rewrite (ended_pendingRequests _ _ _ _ _ Hend), get_delete_ne; [done|].
    intros Heq. rewrite <- Heq in Hget'. congruence.
  - intros id1 id2 p1 p2 [_ H1]%ended_get [_ H2]%ended_get.
    by apply Hwf.
  - intros p. rewrite (ended_promises _ _ _ _ _ Hend), (ended_nextPromise _ _ _ _ _ Hend).
    destruct (decide (p = PendingRequest.reject pending)) as [->|Hne].
    + intros _. apply Hwf.
      destruct (wf_entry _ Hwf _ _ Hget) as (_ & _ & -> & _). eauto.
    + rewrite lookup_insert_ne; [apply Hwf|done].
  - intros h. rewrite (ended_timers _ _ _ _ _ Hend), (ended_nextTimer _ _ _ _ _ Hend).
    intros [tm [_ Htm]%lookup_delete_Some]. apply Hwf. eauto.
Qed.

End Ended.

(** ** The console does not matter *)

Lemma agree_emit e s : agree s (emit e s).
Proof. by repeat split. Qed.

Lemma agree_trans s1 s2 s3 : agree s1 s2 → agree s2 s3 → agree s1 s3.
Proof.
  intros (?&?&?&?&?&?&?&?) (?&?&?&?&?&?&?&?).
  repeat split; congruence.
Qed.

Lemma wf_agree s s' : agree s s' → wf s → wf s'.
Proof.
  intros (Hp & _ & _ & Hpr & Hnp & Ht & Hnt & _) [H1 H2 H3 H4 H5 H6].
  split; rewrite <- ?Hp, <- ?Hpr, <- ?Hnp, <- ?Ht, <- ?Hnt; done.
Qed.

Lemma wf_emit e s : wf s → wf (emit e s).
Proof. apply wf_agree, agree_emit. Qed.

(** ** How each callback ends a call *)

Lemma handleResponse_absent response s :
  JsMap.get (BaseResponse.requestId response) (pendingRequests s) = None →
  handleResponse response s = ignored response s.
Proof. intros H. unfold handleResponse, ignored. simpl. by rewrite H. Qed.

Lemma handleResponse_ended response s pending :
  wf s →
  JsMap.get (BaseResponse.requestId response) (pendingRequests s) = Some pending →
  Ended s (handleResponse response s) (BaseResponse.requestId response) pending
        (if BaseResponse.success response then Fulfilled response
         else Rejected (remoteError (BaseResponse.error response))).
Proof.
  intros Hwf Hget.
  destruct (wf_entry _ Hwf _ _ Hget) as (_ & Hres & Hp & _).
  unfold handleResponse. simpl. rewrite Hget, Hres.
  destruct (BaseResponse.success response); split; fields; try done.
  all: by rewrite settle_pending.
Qed.

Lemma handleResponse_pendingRequests response s :
  pendingRequests (handleResponse response s)
  = JsMap.delete (BaseResponse.requestId response) (pendingRequests s).
Proof.
  unfold handleResponse. simpl.
  destruct (JsMap.get (BaseResponse.requestId response) (pendingRequests s)) eqn:E.
  - destruct (BaseResponse.success response); by fields.
  - simpl. by rewrite delete_absent.
Qed.


Lemma fire_absent h s : timers s !! h = None → fire h s = s.
Proof. intros H. unfold fire. by rewrite H. Qed.

Lemma fire_ended h s tm :
  wf s → timers s !! h = Some tm →
  ∃ pending,
    JsMap.get (cb_requestId (callback tm)) (pendingRequests s) = Some pending
    ∧ PendingRequest.timeout pending = h
    ∧ PendingRequest.reject pending = cb_reject (callback tm)
    ∧ Ended s (fire h s) (cb_requestId (callback tm)) pending
            (Rejected (timeoutError (callback tm))).
Proof.
  intros Hwf Htm.
  destruct (wf_timer _ Hwf _ _ Htm) as (pending & Hget & Hh).
  destruct (wf_entry _ Hwf _ _ Hget) as (_ & _ & Hp & tm' & Htm' & _ & Hrej & _).
  rewrite Hh, Htm in Htm'. injection Htm' as <-.
  exists pending. repeat split; try done.
  all: unfold fire, timeoutCallback; rewrite Htm; fields; try done.
  - by rewrite Hh.
  - rewrite Hrej. by rewrite settle_pending.
Qed.

Lemma cleanupEntry_ended s id pending :
  wf s → JsMap.get id (pendingRequests s) = Some pending →
  Ended s (cleanupEntry s (id, pending)) id pending (Rejected shuttingDown).
Proof.
  intros Hwf Hget.
  destruct (wf_entry _ Hwf _ _ Hget) as (_ & _ & Hp & _).
  unfold cleanupEntry. split; fields; try done.
  by rewrite settle_pending.
Qed.

(** ** Registration *)

Lemma register_eq uuid T s :
  register uuid T s =
  (nextPromise s,
   mkState (JsMap.set uuid
              (PendingRequest.mk (nextPromise s) (nextPromise s) (nextTimer s)
                                 uuid (now s))
              (pendingRequests s))
           (replyQueue s) (isInitialized s)
           (<[nextPromise s := Pending]> (promises s)) (S (nextPromise s))
           (<[nextTimer s := mkTimer (now s + timerDelay T)
                                     (mkCallback uuid (nextPromise s) T)]>
              (timers s))
           (S (nextTimer s)) (now s) (trace s)).
Proof. reflexivity. Qed.

Lemma wf_fresh_promise s : wf s → promises s !! nextPromise s = None.
Proof.
  intros Hwf. destruct (promises s !! nextPromise s) eqn:E; [|done].
  assert (nextPromise s < nextPromise s)%nat by (apply Hwf; eauto). lia.
Qed.

Lemma wf_fresh_timer s : wf s → timers s !! nextTimer s = None.
Proof.
  intros Hwf. destruct (timers s !! nextTimer s) eqn:E; [|done].
  assert (nextTimer s < nextTimer s)%nat by (apply Hwf; eauto). lia.
Qed.

Lemma wf_register uuid T s :
  wf s → JsMap.get uuid (pendingRequests s) = None → wf (register uuid T s).2.
Proof.
  intros Hwf Hfresh. rewrite register_eq. simpl.
  pose proof (wf_fresh_promise _ Hwf) as Hp.
  pose proof (wf_fresh_timer _ Hwf) as Hh.
  split; simpl.
  - apply uniq_set, Hwf.
  - intros id pending. destruct (decide (uuid = id)) as [<-|Hne].
    + rewrite get_set_eq. intros [= <-]. simpl.
      rewrite !lookup_insert_eq. repeat split; eauto 10.
    + rewrite get_set_ne by done. intros Hget.
      destruct (wf_entry _ Hwf _ _ Hget) as (? & ? & Hq & tm & Htm & ?).
      rewrite !lookup_insert_ne by congruence. eauto 10.
  - intros h tm [[<- <-]|[Hne Htm]]%lookup_insert_Some; simpl.
    + eexists. by rewrite get_set_eq.
    + destruct (wf_timer _ Hwf _ _ Htm) as (pending & Hget & ?).
      exists pending. rewrite get_set_ne; [done|congruence].
  - intros id1 id2 p1 p2.
    destruct (decide (uuid = id1)) as [<-|Hne1];
      destruct (decide (uuid = id2)) as [<-|Hne2]; try done;
      rewrite ?get_set_eq, ?get_set_ne by done.
    + intros [= <-] Hget2. simpl. intros Heq.
      destruct (wf_entry _ Hwf _ _ Hget2) as (_ & _ & Hq & _). congruence.
    + intros Hget1 [= <-]. simpl. intros Heq.
      destruct (wf_entry _ Hwf _ _ Hget1) as (_ & _ & Hq & _). congruence.
    + apply Hwf.
  - intros p [<-|Hq]%lookup_insert_is_Some'; [lia|].
    pose proof (wf_next_promise _ Hwf _ Hq). lia.
  - intros h [<-|Hq]%lookup_insert_is_Some'; [lia|].
    pose proof (wf_next_timer _ Hwf _ Hq). lia.
Qed.

(** ** [sendRequest], case by case *)

Section SendRequest.
Context (queue : string) (request : list (string * Json)) (timeout : option Z)
        (uuid timestamp : string) (s : State).

Let T : Z := default 30000 timeout.
Let message : Json := fullRequest request uuid timestamp (replyQueue s) T.

Lemma sendRequest_uninitialized publish :
  isInitialized s = false →
  sendRequest queue request timeout uuid timestamp publish s = (Throw notInitialized, s).
Proof. intros H. unfold sendRequest. by rewrite H. Qed.

Lemma sendRequest_returns b :
  isInitialized s = true →
  sendRequest queue request timeout uuid timestamp (Return b) s
  = (Return (nextPromise s),
     emit (ConsoleLog ("📤 Request enviada: " ++ queue ++ " (requestId: " ++ uuid ++ ")"))
       (emit (Publish "" queue message (Return b)) (register uuid T s).2)).
Proof. intros H. unfold sendRequest. by rewrite H. Qed.

Lemma sendRequest_throws error :
  isInitialized s = true →
  sendRequest queue request timeout uuid timestamp (Throw error) s
  = (Throw (AppError.mk 503 ("Falha ao enviar request para " ++ queue ++ ": " ++ error)),
     with_pendingRequests (JsMap.delete uuid)
       (clearTimeout (nextTimer s)
          (emit (Publish "" queue message (Throw error)) (register uuid T s).2))).
Proof.
  intros H. unfold sendRequest. rewrite H. simpl.
  by rewrite get_set_eq.
Qed.

Lemma wf_sendRequest publish :
  wf s →
  admissible s (SendRequest queue request timeout uuid timestamp publish) = true →
  wf (sendRequest queue request timeout uuid timestamp publish s).2.
Proof.
  intros Hwf Hadm. simpl in Hadm.
  destruct (isInitialized s) eqn:Hinit; [|by rewrite sendRequest_uninitialized].
  destruct (JsMap.get uuid (pendingRequests s)) eqn:Hfresh; [done|].
  destruct publish as [b|error].
  - rewrite sendRequest_returns by done. simpl.
    by apply wf_emit, wf_emit, wf_register.
  - rewrite sendRequest_throws by done. rewrite register_eq.
    pose proof (wf_fresh_promise _ Hwf) as Hp.
    pose proof (wf_fresh_timer _ Hwf) as Hh.
    destruct Hwf as [H1 H2 H3 H4 H5 H6].
    split; simpl; rewrite ?delete_set_fresh, ?delete_insert_id by done; try done.
    + intros id pending Hget.
      destruct (H2 _ _ Hget) as (? & ? & Hq & ?).
      rewrite lookup_insert_ne by congruence. eauto.
    + intros p [<-|Hq]%lookup_insert_is_Some'; [lia|].
      pose proof (H5 _ Hq). lia.
    + intros h Hq. pose proof (H6 _ Hq). lia.
Qed.

End SendRequest.

(** ** The invariant holds in every reachable state *)

Lemma wf_create queue clock : wf (create queue clock).
Proof.
  split; simpl; try done.
  - intros p [? H]. by rewrite lookup_empty in H.
  - intros h [? H]. by rewrite lookup_empty in H.
Qed.

(** [initialize] touches the flag and the outside world only. *)
Lemma initialize_fields aq cs s :
  let s' := (initialize aq cs s).2 in
  pendingRequests s' = pendingRequests s
  ∧ promises s' = promises s
  ∧ timers s' = timers s
  ∧ nextPromise s' = nextPromise s
  ∧ nextTimer s' = nextTimer s
  ∧ now s' = now s.
Proof. unfold initialize. by destruct (isInitialized s), aq, cs. Qed.

Lemma wf_initialize aq cs s : wf s → wf (initialize aq cs s).2.
Proof.
  intros [H1 H2 H3 H4 H5 H6].
  destruct (initialize_fields aq cs s) as (Hp & Hpr & Ht & Hnp & Hnt & _).
  split; rewrite ?Hp, ?Hpr, ?Ht, ?Hnp, ?Hnt; done.
Qed.

Lemma wf_handleResponse response s : wf s → wf (handleResponse response s).
Proof.
  intros Hwf.
  destruct (JsMap.get (BaseResponse.requestId response) (pendingRequests s))
    as [pending|] eqn:Hget.
  - eapply ended_wf; [done..|by apply handleResponse_ended].
  - rewrite handleResponse_absent by done. by apply wf_emit, wf_emit.
Qed.

Lemma wf_fire h s : wf s → wf (fire h s).
Proof.
  intros Hwf. destruct (timers s !! h) as [tm|] eqn:Htm.
  - destruct (fire_ended _ _ _ Hwf Htm) as (pending & Hget & _ & _ & Hend).
    by eapply ended_wf.
  - by rewrite fire_absent.
Qed.

Lemma wf_fires (l : list (nat * Timer)) s :
  wf s → wf (fold_left (λ s ht, fire ht.1 s) l s).
Proof.
  revert s. induction l as [|ht l IH]; simpl; [done|].
  intros s Hwf. by apply IH, wf_fire.
Qed.

Lemma wf_advanceTo t s : wf s → wf (advanceTo t s).
Proof.
  intros Hwf. unfold advanceTo. destruct (t <? now s); [done|].
  pose proof (wf_fires (dueTimers t s) s Hwf) as [].
  by split.
Qed.

(** The loop of [cleanup], entry by entry: when it starts on the whole
    map, the map it meets at each turn is the rest of the list. *)
Lemma cleanup_loop l s :
  wf s → pendingRequests s = l →
  let s' := fold_left cleanupEntry l s in
  wf s'
  ∧ pendingRequests s' = []
  ∧ (∀ id pending, (id, pending) ∈ l →
       promises s' !! PendingRequest.reject pending = Some (Rejected shuttingDown)
       ∧ timers s' !! PendingRequest.timeout pending = None)
  ∧ (∀ q st, promises s !! q = Some st → st ≠ Pending → promises s' !! q = Some st)
  ∧ (∀ q, (∀ id pending, (id, pending) ∈ l → PendingRequest.reject pending ≠ q) →
          promises s' !! q = promises s !! q)
  ∧ (∀ h, timers s !! h = None → timers s' !! h = None)
  ∧ nextPromise s' = nextPromise s ∧ nextTimer s' = nextTimer s
  ∧ now s' = now s ∧ isInitialized s' = isInitialized s
  ∧ replyQueue s' = replyQueue s ∧ trace s' = trace s.
Proof.
  revert s. induction l as [|[id pending] l IH]; intros s Hwf Hl; cbn [fold_left].
  - split_and!; try done. by intros ?? ?%elem_of_nil.
  - assert (JsMap.get id (pendingRequests s) = Some pending) as Hget.
    { rewrite Hl. simpl. by rewrite String.eqb_refl. }
    pose proof (cleanupEntry_ended _ _ _ Hwf Hget) as Hend.
    pose proof (ended_wf _ _ _ _ _ Hwf Hget Hend) as Hwf1.
    destruct (ended_gone _ _ _ _ _ Hend) as (_ & Hh1 & Hp1).
    assert (pendingRequests (cleanupEntry s (id, pending)) = l) as Hl1.
    { rewrite (ended_pendingRequests _ _ _ _ _ Hend), Hl.
      apply delete_head. rewrite <- Hl. apply Hwf. }
    destruct (IH _ Hwf1 Hl1)
      as (Hwf' & Hnil & Hall & Hfin & Hfree & Htim & Hnp & Hnt & Hnow & Hinit & Hq & Htr).
    split_and!; try done.
    + intros id' pending' [[= -> ->]|Hin]%elem_of_cons.
      * split; [by apply Hfin|by apply Htim].
      * exact (Hall _ _ Hin).
    + intros q st Hst Hne. apply Hfin; [|done].
      rewrite (ended_promises _ _ _ _ _ Hend).
      rewrite lookup_insert_ne; [done|]. intros <-.
      destruct (wf_entry _ Hwf _ _ Hget) as (_ & _ & Hq' & _). congruence.
    + intros q Hno. rewrite Hfree.
      * rewrite (ended_promises _ _ _ _ _ Hend). apply lookup_insert_ne.
        apply (Hno id). by left.
      * intros id' pending' Hin. apply (Hno id'). by right.
    + intros h Hnone. apply Htim.
      rewrite (ended_timers _ _ _ _ _ Hend). apply lookup_delete_None. by right.
    + by rewrite Hnp, (ended_nextPromise _ _ _ _ _ Hend).
    + by rewrite Hnt, (ended_nextTimer _ _ _ _ _ Hend).
    + by rewrite Hnow, (ended_now _ _ _ _ _ Hend).
    + by rewrite Hinit, (ended_isInitialized _ _ _ _ _ Hend).
    + by rewrite Hq, (ended_replyQueue _ _ _ _ _ Hend).
    + rewrite Htr. unfold cleanupEntry. by fields.
Qed.

(** [cleanup] as a whole. *)
Lemma cleanup_spec s :
  wf s →
  let s' := cleanup s in
  wf s'
  ∧ pendingRequests s' = []
  ∧ (∀ id pending, JsMap.get id (pendingRequests s) = Some pending →
       promises s' !! PendingRequest.reject pending = Some (Rejected shuttingDown)
       ∧ timers s' !! PendingRequest.timeout pending = None)
  ∧ (∀ q st, promises s !! q = Some st → st ≠ Pending → promises s' !! q = Some st)
  ∧ (∀ q, (∀ id pending, JsMap.get id (pendingRequests s) = Some pending →
                         PendingRequest.reject pending ≠ q) →
          promises s' !! q = promises s !! q)
  ∧ (∀ h, timers s !! h = None → timers s' !! h = None)
  ∧ nextPromise s' = nextPromise s ∧ nextTimer s' = nextTimer s
  ∧ now s' = now s ∧ isInitialized s' = false
  ∧ replyQueue s' = replyQueue s.
Proof.
  intros Hwf. unfold cleanup. cbv zeta.
  set (s0 := emit (ConsoleLog _) s). unfold JsMap.entries.
  destruct (cleanup_loop (pendingRequests s0) s0)
    as (Hwf' & Hnil & Hall & Hfin & Hfree & Htim & Hnp & Hnt & Hnow & _ & Hq & _);
    [by apply wf_emit|done|].
  split_and!; try done.
  - apply wf_emit. destruct Hwf'. by split.
  - intros id pending Hget. apply (Hall id). by apply get_Some_elem.
  - intros q Hno. apply Hfree. intros id pending Hin. apply (Hno id).
    by apply uniq_elem_get; [apply Hwf|].
Qed.

Lemma wf_cleanup s : wf s → wf (cleanup s).
Proof. intros Hwf. by apply cleanup_spec. Qed.

Lemma wf_step s ev : wf s → admissible s ev = true → wf (step s ev).
Proof.
  intros Hwf Hadm. destruct ev; simpl.
  - by apply wf_initialize.
  - by apply wf_sendRequest.
  - by apply wf_handleResponse.
  - by apply wf_advanceTo.
  - by apply wf_cleanup.
Qed.

Lemma wf_run evs s : wf s → admissibleRun evs s = true → wf (run evs s).
Proof.
  revert s. induction evs as [|ev evs IH]; simpl; [done|].
  intros s Hwf [Hadm Hrest]%andb_true_iff. by apply IH; [apply wf_step|].
Qed.

Lemma Reachable_wf s : Reachable s → wf s.
Proof.
  intros (queue & clock & evs & Hadm & <-). by apply wf_run; [apply wf_create|].
Qed.

Lemma admissibleRun_app evs1 evs2 s :
  admissibleRun (evs1 ++ evs2)%list s
  = admissibleRun evs1 s && admissibleRun evs2 (run evs1 s).
Proof.
  revert s. induction evs1 as [|ev evs1 IH]; simpl; intros s; [done|].
  by rewrite IH, andb_assoc.
Qed.

Lemma run_app evs1 evs2 s : run (evs1 ++ evs2)%list s = run evs2 (run evs1 s).
Proof. apply fold_left_app. Qed.

Lemma Reachable_run s evs :
  Reachable s → admissibleRun evs s = true → Reachable (run evs s).
Proof.
  intros (queue & clock & evs0 & Hadm & <-) Hevs.
  exists queue, clock, (evs0 ++ evs)%list. split.
  - by rewrite admissibleRun_app, Hadm, Hevs.
  - apply run_app.
Qed.

Lemma Reachable_step s ev :
  Reachable s → admissible s ev = true → Reachable (step s ev).
Proof.
  intros Hs Hev. apply (Reachable_run s [ev]); [done|].
  simpl. by rewrite Hev.
Qed.

Lemma Reachable_create queue clock : Reachable (create queue clock).
Proof. by exists queue, clock, []. Qed.

(** ** What is over stays over *)

Lemma ended_final s s' id pending st q st0 :
  wf s → JsMap.get id (pendingRequests s) = Some pending →
  Ended s s' id pending st →
  promises s !! q = Some st0 → st0 ≠ Pending → promises s' !! q = Some st0.
Proof.
  intros Hwf Hget Hend Hq Hst. rewrite (ended_promises _ _ _ _ _ Hend).
  rewrite lookup_insert_ne; [done|]. intros <-.
  destruct (wf_entry _ Hwf _ _ Hget) as (_ & _ & Hp & _). congruence.
Qed.

(** A timer that fires only deletes and settles. *)
Lemma fire_mono h s :
  (∀ id, JsMap.get id (pendingRequests s) = None →
         JsMap.get id (pendingRequests (fire h s)) = None)
  ∧ (∀ q st, promises s !! q = Some st → st ≠ Pending →
             promises (fire h s) !! q = Some st)
  ∧ (∀ h', timers s !! h' = None → timers (fire h s) !! h' = None).
Proof.
  unfold fire. destruct (timers s !! h) as [tm|] eqn:Htm; [|done].
  unfold timeoutCallback. split_and!.
  - intros id Hid. fields. by apply get_delete_None.
  - intros q st Hq Hst. by apply settle_final.
  - intros h' Hh'. fields. apply lookup_delete_None. by right.
Qed.

Lemma fires_mono (l : list (nat * Timer)) s :
  let s' := fold_left (λ s ht, fire ht.1 s) l s in
  (∀ id, JsMap.get id (pendingRequests s) = None →
         JsMap.get id (pendingRequests s') = None)
  ∧ (∀ q st, promises s !! q = Some st → st ≠ Pending → promises s' !! q = Some st)
  ∧ (∀ h', timers s !! h' = None → timers s' !! h' = None).
Proof.
  revert s. induction l as [|ht l IH]; intros s; cbn [fold_left]; [done|].
  destruct (fire_mono ht.1 s) as (H1 & H2 & H3).
  destruct (IH (fire ht.1 s)) as (I1 & I2 & I3).
  split_and!; eauto.
Qed.

(** A registered call through a batch of timers: it is ended by its own
    timer and by no other. *)
Lemma fires_track (l : list (nat * Timer)) s id pending tm :
  wf s →
  JsMap.get id (pendingRequests s) = Some pending →
  timers s !! PendingRequest.timeout pending = Some tm →
  let s' := fold_left (λ s ht, fire ht.1 s) l s in
  ((PendingRequest.timeout pending ∉ l.*1)
   ∧ JsMap.get id (pendingRequests s') = Some pending
   ∧ timers s' !! PendingRequest.timeout pending = Some tm)
  ∨ ((PendingRequest.timeout pending ∈ l.*1)
     ∧ JsMap.get id (pendingRequests s') = None
     ∧ timers s' !! PendingRequest.timeout pending = None
     ∧ promises s' !! PendingRequest.reject pending
       = Some (Rejected (timeoutError (callback tm)))).
Proof.
  revert s. induction l as [|[h0 tm0] l IH]; intros s Hwf Hget Htm; cbn [fold_left].
  { left. split_and!; try done. simpl. by intros ?%elem_of_nil. }
  cbn [fst]. destruct (decide (h0 = PendingRequest.timeout pending)) as [->|Hne].
  - right.
    destruct (fire_ended _ _ _ Hwf Htm) as (pending0 & Hget0 & _ & _ & Hend).
    destruct (wf_entry _ Hwf _ _ Hget) as (_ & _ & _ & tm' & Htm' & Hid & _).
    assert (tm' = tm) as -> by congruence. rewrite Hid in Hget0, Hend.
    assert (pending0 = pending) as -> by congruence.
    destruct (ended_gone _ _ _ _ _ Hend) as (Hg & Ht & Hp).
    destruct (fires_mono l (fire (PendingRequest.timeout pending) s)) as (M1 & M2 & M3).
    split_and!; [rewrite fmap_cons; by left|by apply M1|by apply M3|by apply M2].
  - assert (wf (fire h0 s)) as Hwf1 by by apply wf_fire.
    assert (JsMap.get id (pendingRequests (fire h0 s)) = Some pending
            ∧ timers (fire h0 s) !! PendingRequest.timeout pending = Some tm)
      as [Hget1 Htm1].
    { destruct (timers s !! h0) as [tm1|] eqn:Htm1; [|by rewrite fire_absent].
      destruct (fire_ended _ _ _ Hwf Htm1) as (pending0 & Hget0 & Hh0 & _ & Hend).
      assert (id ≠ cb_requestId (callback tm1)) as Hid.
      { intros ->. congruence. }
      destruct (ended_other _ _ _ _ _ Hwf Hget0 Hend _ _ Hid Hget) as (? & _ & Ht).
      split; [done|]. by rewrite Ht. }
    destruct (IH _ Hwf1 Hget1 Htm1) as [(Hnin & ? & ?)|(Hin & ? & ? & ?)].
    + left. split_and!; try done. rewrite fmap_cons.
      intros [?|?]%elem_of_cons; [|done]. simpl in *. congruence.
    + right. split_and!; try done. rewrite fmap_cons. by right.
Qed.

(** ** The clock *)

Lemma elem_of_dueTimers h tm t s :
  (h, tm) ∈ dueTimers t s ↔ timers s !! h = Some tm ∧ due tm ≤ t.
Proof.
  unfold dueTimers. rewrite merge_sort_Permutation, list_elem_of_filter.
  rewrite elem_of_map_to_list. simpl. tauto.
Qed.

Lemma elem_of_dueTimers_fst h t s :
  h ∈ (dueTimers t s).*1 ↔ ∃ tm, timers s !! h = Some tm ∧ due tm ≤ t.
Proof.
  rewrite list_elem_of_fmap. split.
  - intros ([h' tm] & -> & Hin). apply elem_of_dueTimers in Hin. eauto.
  - intros (tm & Hin). exists (h, tm). split; [done|]. by apply elem_of_dueTimers.
Qed.

(** A registered call across a move of the clock: it ends exactly when the
    clock reaches the due time of its timer. *)
Lemma advanceTo_track t s id pending tm :
  wf s →
  JsMap.get id (pendingRequests s) = Some pending →
  timers s !! PendingRequest.timeout pending = Some tm →
  let s' := advanceTo t s in
((¬ (now s ≤ t ∧ due tm ≤ t))
   ∧ JsMap.get id (pendingRequests s') = Some pending
   ∧ timers s' !! PendingRequest.timeout pending = Some tm)
  ∨ (now s ≤ t ∧ due tm ≤ t
     ∧ JsMap.get id (pendingRequests s') = None
     ∧ timers s' !! PendingRequest.timeout pending = None
     ∧ promises s' !! PendingRequest.reject pending
       = Some (Rejected (timeoutError (callback tm)))).
Proof.
  intros Hwf Hget Htm. unfold advanceTo.
  destruct (t <? now s) eqn:Hlt.
  { left. apply Z.ltb_lt in Hlt. split_and!; [lia|done..]. }
  apply Z.ltb_ge in Hlt. simpl.
  destruct (fires_track (dueTimers t s) _ _ _ _ Hwf Hget Htm)
    as [(Hnin & ? & ?)|(Hin & ? & ? & ?)].
  - left. split_and!; try done. intros [_ Hdue]. apply Hnin.
    apply elem_of_dueTimers_fst. eauto.
  - right. apply elem_of_dueTimers_fst in Hin as (tm' & Htm' & Hdue).
    assert (tm' = tm) as -> by congruence. by split_and!.
Qed.


(** ** A registered call, one event at a time *)

(** Either the event leaves the call as it is, or it ends it: by a reply
    carrying its identifier, by its timer coming due, or by [cleanup]. *)
Lemma step_track s ev id pending :
  wf s → admissible s ev = true →
  JsMap.get id (pendingRequests s) = Some pending →
  let s' := step s ev in
  (JsMap.get id (pendingRequests s') = Some pending
   ∧ promises s' !! PendingRequest.reject pending = Some Pending
   ∧ timers s' !! PendingRequest.timeout pending
     = timers s !! PendingRequest.timeout pending)
  ∨ (JsMap.get id (pendingRequests s') = None
     ∧ timers s' !! PendingRequest.timeout pending = None
     ∧ ((∃ response,
           ev = Deliver response ∧ BaseResponse.requestId response = id
           ∧ promises s' !! PendingRequest.reject pending
             = Some (if BaseResponse.success response then Fulfilled response
                     else Rejected (remoteError (BaseResponse.error response))))
        ∨ (∃ t tm,
             ev = Tick t ∧ timers s !! PendingRequest.timeout pending = Some tm
             ∧ now s ≤ t ∧ due tm ≤ t
             ∧ promises s' !! PendingRequest.reject pending
               = Some (Rejected (timeoutError (callback tm))))
        ∨ (ev = Cleanup
           ∧ promises s' !! PendingRequest.reject pending
             = Some (Rejected shuttingDown)))).
Proof.
  intros Hwf Hadm Hget.
  destruct (wf_entry _ Hwf _ _ Hget) as (_ & _ & Hp & tm & Htm & _).
  destruct ev as [aq cs|queue request timeout uuid timestamp publish|response|t|];
    cbn [step].
  - (* initialize touches neither map *)
    left. unfold initialize.
    destruct (isInitialized s); [done|]. destruct aq; [|done]. by destruct cs.
  - (* another request, under another identifier *)
    left. simpl in Hadm.
    destruct (isInitialized s) eqn:Hinit; [|by rewrite sendRequest_uninitialized].
    assert (uuid ≠ id) as Hne.
    { intros ->. by rewrite Hget in Hadm. }
    assert (PendingRequest.reject pending ≠ nextPromise s) as Hnp.
    { intros Heq. pose proof (wf_fresh_promise _ Hwf). congruence. }
    assert (PendingRequest.timeout pending ≠ nextTimer s) as Hnt.
    { intros Heq. pose proof (wf_fresh_timer _ Hwf). congruence. }
    destruct publish as [b|error].
    + rewrite sendRequest_returns, register_eq by done. simpl.
      by rewrite get_set_ne, !lookup_insert_ne.
    + rewrite sendRequest_throws, register_eq by done. simpl.
      rewrite get_delete_ne, get_set_ne by done.
      by rewrite lookup_delete_ne, !lookup_insert_ne.
  - (* a reply *)
    destruct (JsMap.get (BaseResponse.requestId response) (pendingRequests s))
      as [pending0|] eqn:Hget0.
    + pose proof (handleResponse_ended _ _ _ Hwf Hget0) as Hend.
      destruct (decide (id = BaseResponse.requestId response)) as [->|Hne].
      * assert (pending0 = pending) as -> by congruence.
        destruct (ended_gone _ _ _ _ _ Hend) as (? & ? & ?).
        right. split_and!; try done. left. by exists response.
      * destruct (ended_other _ _ _ _ _ Hwf Hget0 Hend _ _ Hne Hget) as (? & -> & ->).
        by left.
    + left. by rewrite handleResponse_absent.
  - (* the clock *)
    destruct (advanceTo_track t _ _ _ _ Hwf Hget Htm)
      as [(_ & ? & Ht)|(? & ? & ? & ? & ?)].
    + left. split_and!; [done| |by rewrite Ht].
      by apply (wf_entry _ (wf_advanceTo t _ Hwf) _ _ H).
    + right. split_and!; try done. right. left. by exists t, tm.
  - (* shutdown *)
    right. destruct (cleanup_spec _ Hwf) as (_ & Hnil & Hall & _).
    destruct (Hall _ _ Hget) as [? ?].
    rewrite Hnil. split_and!; try done. right. by right.
Qed.

(** Once settled, a promise keeps its state whatever happens next. *)
Lemma step_final s ev q st :
  wf s → admissible s ev = true →
  promises s !! q = Some st → st ≠ Pending →
  promises (step s ev) !! q = Some st.
Proof.
  intros Hwf Hadm Hq Hst.
  destruct ev as [aq cs|queue request timeout uuid timestamp publish|response|t|];
    cbn [step].
  - unfold initialize.
    destruct (isInitialized s); [done|]. destruct aq; [|done]. by destruct cs.
  - destruct (isInitialized s) eqn:Hinit; [|by rewrite sendRequest_uninitialized].
    assert (q ≠ nextPromise s) as Hnp.
    { intros ->. pose proof (wf_fresh_promise _ Hwf). congruence. }
    destruct publish as [b|error].
    + rewrite sendRequest_returns, register_eq by done. simpl.
      by rewrite lookup_insert_ne.
    + rewrite sendRequest_throws, register_eq by done. simpl.
      by rewrite lookup_insert_ne.
  - destruct (JsMap.get (BaseResponse.requestId response) (pendingRequests s))
      as [pending0|] eqn:Hget0.
    + by eapply ended_final; [..|by apply handleResponse_ended|done|done].
    + by rewrite handleResponse_absent.
  - unfold advanceTo. destruct (t <? now s); [done|]. simpl.
    by apply fires_mono.
  - by apply cleanup_spec.
Qed.

Lemma run_final evs s q st :
  wf s → admissibleRun evs s = true →
  promises s !! q = Some st → st ≠ Pending →
  promises (run evs s) !! q = Some st.
Proof.
  revert s. induction evs as [|ev evs IH]; simpl; [done|].
  intros s Hwf [Hadm Hrest]%andb_true_iff Hq Hst.
  apply IH; [by apply wf_step|done|by apply step_final|done].
Qed.

(** ** Only the clock moves the clock *)




(** ** Supporting facts for the claims *)

Lemma handleResponse_gone response s :
  JsMap.get (BaseResponse.requestId response)
            (pendingRequests (handleResponse response s)) = None.
Proof. rewrite handleResponse_pendingRequests. apply get_delete_eq. Qed.

Lemma fire_gone h tm s :
  timers s !! h = Some tm →
  JsMap.get (cb_requestId (callback tm)) (pendingRequests (fire h s)) = None.
Proof.
  intros Htm. unfold fire, timeoutCallback. rewrite Htm. fields.
  apply get_delete_eq.
Qed.

Lemma NotRegistered_get id s :
  NotRegistered id s → JsMap.get id (pendingRequests s) = None.
Proof.
  intros [s0 H|s0 response <-|s0 h tm Htm <-].
  - done.
  - apply handleResponse_gone.
  - by apply fire_gone.
Qed.


Lemma demoSend_reachable : Reachable demoSend.2.
Proof.
  exists None, 0,
    [Initialize (Return ()) (Return ()); demoRequest "id-1" (Return true)].
  split; vm_compute; reflexivity.
Qed.

Lemma demoThree_reachable : Reachable demoThree.
Proof.
  exists None, 0,
    [Initialize (Return ()) (Return ());
     demoRequest "id-1" (Return true);
     demoRequest "id-2" (Return true);
     demoRequest "id-3" (Return false)].
  split; vm_compute; reflexivity.
Qed.

(** The continuation of [sendRequest] after a failed [publish] is safe in
    whatever state it resumes: it throws the 503 error, the identifier is
    not registered afterwards, the other entries are untouched, and when
    something else has already removed the entry it changes nothing. *)
Lemma afterPublish_failure_in_any_state queue uuid p error s :
  let result := afterPublish queue uuid p (Throw error) s in
  result.1
  = Throw (AppError.mk 503 ("Falha ao enviar request para " ++ queue ++ ": " ++ error))
  ∧ JsMap.get uuid (pendingRequests result.2) = None
  ∧ (∀ id, id ≠ uuid →
       JsMap.get id (pendingRequests result.2) = JsMap.get id (pendingRequests s))
  ∧ (JsMap.get uuid (pendingRequests s) = None → result.2 = s).
Proof.
  unfold afterPublish. cbn [fst snd].
  destruct (JsMap.get uuid (pendingRequests s)) as [pending|] eqn:Hget.
  - split_and!; try done.
    + apply get_delete_eq.
    + intros id Hne. by apply get_delete_ne.
  - by split_and!.
Qed.

(** A pending promise that no entry refers to is out of reach: no event
    settles it, and no event makes an entry refer to it. *)
Lemma step_orphan s ev p :
  wf s → admissible s ev = true →
  promises s !! p = Some Pending → unreferenced p s →
  promises (step s ev) !! p = Some Pending ∧ unreferenced p (step s ev).
Proof.
  intros Hwf Hadm Hp Hfree.
  assert (p ≠ nextPromise s) as Hnp.
  { intros ->. pose proof (wf_fresh_promise _ Hwf). congruence. }
  destruct ev as [aq cs|queue request timeout uuid timestamp publish|response|t|];
    cbn [step].
  - destruct (initialize_fields aq cs s) as (Hpe & Hpr & _).
    unfold unreferenced. by rewrite Hpe, Hpr.
  - simpl in Hadm.
    destruct (isInitialized s) eqn:Hinit; [|by rewrite sendRequest_uninitialized].
    destruct (JsMap.get uuid (pendingRequests s)) eqn:Hfresh; [done|].
    destruct publish as [b|error].
    + rewrite sendRequest_returns, register_eq by done.
      unfold unreferenced. cbn [snd emit promises pendingRequests].
      split; [by rewrite lookup_insert_ne|].
      intros id pending. destruct (decide (uuid = id)) as [<-|Hne].
      * rewrite get_set_eq. by intros [= <-].
      * rewrite get_set_ne by done. apply Hfree.
    + rewrite sendRequest_throws, register_eq by done.
      unfold unreferenced.
      cbn [snd emit clearTimeout with_timers with_pendingRequests promises
           pendingRequests].
      rewrite delete_set_fresh by done. split; [by rewrite lookup_insert_ne|done].
  - destruct (JsMap.get (BaseResponse.requestId response) (pendingRequests s))
      as [pending0|] eqn:Hget0.
    + pose proof (handleResponse_ended _ _ _ Hwf Hget0) as Hend. split.
      * rewrite (ended_promises _ _ _ _ _ Hend), lookup_insert_ne; [done|].
        by apply (Hfree _ _ Hget0).
      * intros id pending [_ Hget]%(ended_get _ _ _ _ _ Hend). by apply (Hfree id).
    + by rewrite handleResponse_absent.
  - unfold advanceTo. destruct (t <? now s); [done|].
    unfold unreferenced. cbn [with_now promises pendingRequests].
    generalize (dueTimers t s) as l. intros l. clear Hadm.
    revert s Hwf Hp Hfree Hnp.
    induction l as [|[h0 tm0] l IH]; intros s Hwf Hp Hfree Hnp; cbn [fold_left fst];
      [done|].
    assert (promises (fire h0 s) !! p = Some Pending ∧ unreferenced p (fire h0 s))
      as [Hp1 Hfree1].
    { destruct (timers s !! h0) as [tm|] eqn:Htm; [|by rewrite fire_absent].
      destruct (fire_ended _ _ _ Hwf Htm) as (pending0 & Hget0 & _ & _ & Hend). split.
      - rewrite (ended_promises _ _ _ _ _ Hend), lookup_insert_ne; [done|].
        by apply (Hfree _ _ Hget0).
      - intros id pending [_ Hget]%(ended_get _ _ _ _ _ Hend). by apply (Hfree id). }
    apply IH; try done; [by apply wf_fire|].
    intros Heq. pose proof (wf_fresh_promise _ (wf_fire h0 _ Hwf)). congruence.
  - destruct (cleanup_spec _ Hwf) as (_ & Hnil & _ & _ & Hkeep & _). split.
    + rewrite Hkeep; [done|]. apply Hfree.
    + intros id pending. by rewrite Hnil.
Qed.

Lemma run_orphan evs s p :
  wf s → admissibleRun evs s = true →
  promises s !! p = Some Pending → unreferenced p s →
  promises (run evs s) !! p = Some Pending.
Proof.
  revert s. induction evs as [|ev evs IH]; simpl; [done|].
  intros s Hwf [Hadm Hrest]%andb_true_iff Hp Hfree.
  destruct (step_orphan _ _ _ Hwf Hadm Hp Hfree).
  by apply IH; [apply wf_step|..].
Qed.

Lemma cleanup_empty s :
  pendingRequests s = [] → agree (with_isInitialized false s) (cleanup s).
Proof.
  intros Hnil. unfold cleanup. cbv zeta.
  set (s0 := emit (ConsoleLog _) s).
  assert (pendingRequests s0 = []) as -> by done.
  by repeat split.
Qed.

Lemma remoteError_code e :
  AppError.code (remoteError (Some e)) = num_or (parseInt10 (BaseResponse.code e)) 500.
Proof.
  unfold remoteError, str_or. simpl.
  destruct (String.eqb (BaseResponse.code e) "") eqn:E; [|done].
  apply String.eqb_eq in E. by rewrite E.
Qed.

Lemma remoteError_message e :
  AppError.message (remoteError (Some e))
  = if String.eqb (BaseResponse.message e) "" then "Face recognition service error"
    else BaseResponse.message e.
Proof. reflexivity. Qed.

(* ===================================================================== *)
(** * The specification, claim by claim                                   *)
(* ===================================================================== *)

(** C1. Take a call registered in a reachable state. Its promise is
    pending. Any event either leaves the call registered and pending or
    ends it, and then in exactly one of four ways, told apart by the event
    and by the state the promise is left in: a reply with [success: true]
    (fulfilled with the reply), a reply with [success: false] (rejected
    with the remote error), the clock reaching its deadline (rejected with
    the time-out error), or [cleanup] (rejected with the shutdown error).
    The entry leaves the registry in that same step, and from then on no
    event changes the promise. Left alone, the call is ended by its timer
    once the clock has reached the deadline. (A call whose [publish] throws
    is taken out of the registry by [sendRequest] itself, before any other
    callback runs: it is never among the registered calls of a reachable
    state; see C6.) *)
Theorem call_ends_exactly_once s id p :
  Reachable s → registeredCall s id p →
  promises s !! p = Some Pending
  ∧ (∀ ev, admissible s ev = true →
       let s' := step s ev in
       (registeredCall s' id p ∧ promises s' !! p = Some Pending)
       ∨ (JsMap.get id (pendingRequests s') = None
          ∧ ((∃ response,
                ev = Deliver response
                ∧ BaseResponse.requestId response = id
                ∧ BaseResponse.success response = true
                ∧ promises s' !! p = Some (Fulfilled response))
             ∨ (∃ response,
                  ev = Deliver response
                  ∧ BaseResponse.requestId response = id
                  ∧ BaseResponse.success response = false
                  ∧ promises s' !! p
                    = Some (Rejected (remoteError (BaseResponse.error response))))
             ∨ (∃ t T,
                  ev = Tick t
                  ∧ promises s' !! p
                    = Some (Rejected (timeoutError (mkCallback id p T))))
             ∨ (ev = Cleanup ∧ promises s' !! p = Some (Rejected shuttingDown)))
          ∧ ∀ evs, admissibleRun evs s' = true →
                   promises (run evs s') !! p = promises s' !! p))
  ∧ ∃ deadline, ∀ t,
      now s ≤ t → deadline ≤ t →
      JsMap.get id (pendingRequests (advanceTo t s)) = None
      ∧ ∃ T, promises (advanceTo t s) !! p
             = Some (Rejected (timeoutError (mkCallback id p T))).
Proof.
  intros Hs%Reachable_wf (pending & Hget & Hres & <-).
  destruct (wf_entry _ Hs _ _ Hget) as (_ & _ & Hp & tm & Htm & Hid & Hrej & _).
  assert (callback tm
          = mkCallback id (PendingRequest.reject pending) (cb_timeout (callback tm)))
    as Hcb.
  { destruct (callback tm). simpl in *. by subst. }
  split_and!.
  - done.
  - intros ev Hadm s'.
    assert (∀ st, promises s' !! PendingRequest.reject pending = Some st →
                  st ≠ Pending →
                  ∀ evs, admissibleRun evs s' = true →
                         promises (run evs s') !! PendingRequest.reject pending
                         = promises s' !! PendingRequest.reject pending) as Hfinal.
    { intros st Hst Hne evs Hevs. rewrite Hst.
      apply run_final; try done. by apply wf_step. }
    destruct (step_track _ _ _ _ Hs Hadm Hget)
      as [(? & ? & _)|(? & _ & [(response & -> & <- & Hr)|[(t & tm' & -> & Htm' & _ & _ & Hr)
                                                       |[-> Hr]]])].
    + left. split; [by exists pending|done].
    + right. split; [done|].
      destruct (BaseResponse.success response) eqn:Hsucc.
      * split; [left; by exists response|by eapply Hfinal].
      * split; [right; left; by exists response|by eapply Hfinal].
    + right. split; [done|]. assert (tm' = tm) as -> by congruence.
      split; [|by eapply Hfinal].
      right. right. left. exists t, (cb_timeout (callback tm)). by rewrite <- Hcb.
    + right. split; [done|].
      split; [|by eapply Hfinal]. right. right. by right.
  - exists (due tm). intros t Hnow Hdue.
    destruct (advanceTo_track t _ _ _ _ Hs Hget Htm) as [(Hnot & _)|(_ & _ & ? & _ & ?)].
    + by destruct Hnot.
    + split; [done|]. exists (cb_timeout (callback tm)). by rewrite <- Hcb.
Qed.

Lemma call_ends_exactly_once_witness :
  promises demoSend.2 !! 0%nat = Some Pending
  ∧ promises (run [Tick 5000; Cleanup] (step demoSend.2 (Deliver demoReply))) !! 0%nat
    = promises (step demoSend.2 (Deliver demoReply)) !! 0%nat.
Proof.
  assert (registeredCall demoSend.2 "id-1" 0) as Hreg.
  { exists (PendingRequest.mk 0 0 0 "id-1" 0). vm_compute. by repeat split. }
  destruct (call_ends_exactly_once demoSend.2 "id-1" 0%nat demoSend_reachable Hreg)
    as (Hpending & Hstep & _).
  split; [exact Hpending|].
  destruct (Hstep (Deliver demoReply) eq_refl) as [[_ Hstill]|(_ & _ & Hfinal)].
  - exfalso. revert Hstill. vm_compute. discriminate.
  - exact (Hfinal [Tick 5000; Cleanup] ltac:(vm_compute; reflexivity)).
Defined.



(** C3. A reply whose identifier is not registered (it never was, or its
    call has already been resolved, or has already timed out) is ignored:
    [handleResponse] returns, having written its two lines to the console,
    the second one a warning; the registry, its size, the promises and the
    timers are what they were. In particular a second reply for the same
    identifier does nothing. *)
Theorem unknown_reply_is_ignored response s :
  NotRegistered (BaseResponse.requestId response) s →
  handleResponse response s = ignored response s
  ∧ agree s (handleResponse response s)
  ∧ JsMap.size (pendingRequests (handleResponse response s))
    = JsMap.size (pendingRequests s)
  ∧ ∃ line1 line2,
      trace (handleResponse response s)
      = (trace s ++ [ConsoleLog line1; ConsoleWarn line2])%list.
Proof.
  intros Hid%NotRegistered_get.
  rewrite handleResponse_absent by done.
  split_and!.
  - done.
  - unfold ignored. eapply agree_trans; apply agree_emit.
  - done.
  - unfold ignored. simpl. do 2 eexists. by rewrite <- app_assoc.
Qed.

Lemma unknown_reply_is_ignored_witness :
  NotRegistered "id-1" (handleResponse demoReply demoSend.2)
  ∧ handleResponse demoReply (handleResponse demoReply demoSend.2)
    = ignored demoReply (handleResponse demoReply demoSend.2)
  ∧ JsMap.size (pendingRequests
                  (handleResponse demoReply (handleResponse demoReply demoSend.2)))
    = JsMap.size (pendingRequests (handleResponse demoReply demoSend.2)).
Proof.
  assert (NotRegistered (BaseResponse.requestId demoReply)
                        (handleResponse demoReply demoSend.2)) as H
    by (apply already_resolved; reflexivity).
  split; [exact H|].
  destruct (unknown_reply_is_ignored demoReply _ H) as (H1 & _ & H2 & _).
  split; [exact H1|exact H2].
Defined.




(** A negative time-out is accepted as well, and its timer fires at the
    next move of the clock. *)
Example negative_timeout_is_accepted :
  let result := demoRequestWith (Some (-5)) in
  result.1 = Return 0%nat
  ∧ promises result.2 !! 0%nat = Some Pending
  ∧ promises (run [Tick 1] result.2) !! 0%nat
    = Some (Rejected (AppError.mk 504 "Request timeout after -5ms (requestId: id-1)")).
Proof. vm_compute. by repeat split. Qed.

(** C5. [cleanup] rejects the promise of every registered call with the
    503 "Service shutting down" error and clears its timer; afterwards the
    registry is empty, no timer is armed, [getStats] reports no pending
    request and the service is no longer initialized, so that [sendRequest]
    throws the same error as before [initialize] and changes nothing. With
    nothing pending [cleanup] only resets the flag, and a second [cleanup]
    changes nothing but the console. *)
Theorem cleanup_cancels_everything s :
  Reachable s →
  let s' := cleanup s in
  (∀ id pending,
     JsMap.get id (pendingRequests s) = Some pending →
     promises s' !! PendingRequest.reject pending = Some (Rejected shuttingDown)
     ∧ timers s' !! PendingRequest.timeout pending = None)
  ∧ pendingRequests s' = JsMap.empty
  ∧ timers s' = ∅
  ∧ stats_pendingRequests (getStats s') = 0%nat
  ∧ stats_isInitialized (getStats s') = false
  ∧ (∀ queue request timeout uuid timestamp publish,
       sendRequest queue request timeout uuid timestamp publish s'
       = (Throw notInitialized, s'))
  ∧ (∀ replyTo clock queue request timeout uuid timestamp publish,
       sendRequest queue request timeout uuid timestamp publish (create replyTo clock)
       = (Throw notInitialized, create replyTo clock))
  ∧ (pendingRequests s = JsMap.empty → agree (with_isInitialized false s) s')
  ∧ agree s' (cleanup s').
Proof.
  intros Hs%Reachable_wf s'.
  destruct (cleanup_spec _ Hs)
    as (Hwf' & Hnil & Hall & _ & _ & _ & _ & _ & _ & Hinit & _).
  fold s' in Hwf', Hnil, Hall, Hinit.
  split_and!.
  - done.
  - done.
  - apply map_empty. intros h. destruct (timers s' !! h) as [tm|] eqn:Htm; [|done].
    destruct (wf_timer _ Hwf' _ _ Htm) as (pending & Hget & _).
    by rewrite Hnil in Hget.
  - unfold getStats. cbn [stats_pendingRequests]. by rewrite Hnil.
  - done.
  - intros. by apply sendRequest_uninitialized.
  - intros. by apply sendRequest_uninitialized.
  - apply cleanup_empty.
  - eapply agree_trans; [|by apply cleanup_empty].
    unfold agree. cbn [with_isInitialized pendingRequests replyQueue isInitialized
                         promises nextPromise timers nextTimer now].
    by rewrite Hinit.
Qed.

Lemma cleanup_cancels_everything_witness :
  promises (cleanup demoThree) !! 0%nat = Some (Rejected shuttingDown)
  ∧ promises (cleanup demoThree) !! 1%nat = Some (Rejected shuttingDown)
  ∧ promises (cleanup demoThree) !! 2%nat = Some (Rejected shuttingDown)
  ∧ pendingRequests (cleanup demoThree) = JsMap.empty
  ∧ timers (cleanup demoThree) = ∅
  ∧ stats_pendingRequests (getStats (cleanup demoThree)) = 0%nat.
Proof.
  destruct (cleanup_cancels_everything demoThree demoThree_reachable)
    as (Hall & Hnil & Htimers & Hstats & _).
  assert (JsMap.get "id-1" (pendingRequests demoThree)
          = Some (PendingRequest.mk 0 0 0 "id-1" 0)) as H1 by (vm_compute; reflexivity).
  assert (JsMap.get "id-2" (pendingRequests demoThree)
          = Some (PendingRequest.mk 1 1 1 "id-2" 0)) as H2 by (vm_compute; reflexivity).
  assert (JsMap.get "id-3" (pendingRequests demoThree)
          = Some (PendingRequest.mk 2 2 2 "id-3" 0)) as H3 by (vm_compute; reflexivity).
  split; [exact (proj1 (Hall _ _ H1))|].
  split; [exact (proj1 (Hall _ _ H2))|].
  split; [exact (proj1 (Hall _ _ H3))|].
  split; [exact Hnil|]. split; [exact Htimers|exact Hstats].
Defined.

(** C6. When [rabbitMQ.publish] throws, [sendRequest] takes the entry it
    has just stored out of the registry, clears the timer it has just
    armed, and throws the 503 error that names the queue and the cause.
    The failed call to [publish] is the only thing the outside world has
    seen of it: there is no second attempt. The other entries are
    untouched, the timer table is as before, and when the identifier was
    fresh the registry is exactly what it was before the call. *)
Theorem publish_failure_unregisters
    queue request timeout uuid timestamp error s :
  Reachable s → isInitialized s = true →
  let result := sendRequest queue request timeout uuid timestamp (Throw error) s in
  result.1
  = Throw (AppError.mk 503 ("Falha ao enviar request para " ++ queue ++ ": " ++ error))
  ∧ JsMap.get uuid (pendingRequests result.2) = None
  ∧ timers result.2 !! nextTimer s = None
  ∧ timers result.2 = timers s
  ∧ trace result.2
    = (trace s
         ++ [Publish "" queue
               (fullRequest request uuid timestamp (replyQueue s)
                            (default 30000 timeout))
               (Throw error)])%list
  ∧ (∀ id, id ≠ uuid →
       JsMap.get id (pendingRequests result.2) = JsMap.get id (pendingRequests s))
  ∧ (JsMap.get uuid (pendingRequests s) = None →
       pendingRequests result.2 = pendingRequests s).
Proof.
  intros Hs%Reachable_wf Hinit result. unfold result.
  rewrite sendRequest_throws, register_eq by done.
  cbn [fst snd clearTimeout with_timers with_pendingRequests emit
       pendingRequests timers trace].
  pose proof (wf_fresh_timer _ Hs) as Hh.
  split_and!.
  - done.
  - apply get_delete_eq.
  - apply lookup_delete_eq.
  - by apply delete_insert_id.
  - done.
  - intros id Hne. by rewrite get_delete_ne, get_set_ne.
  - intros Hfresh. by apply delete_set_fresh.
Qed.

Lemma publish_failure_unregisters_witness :
  let result :=
    sendRequest "face.verification.requests" [("userId", JStr "u1")] None
                "id-4" "2025-01-01T00:00:01.000Z" (Throw "Error: channel closed")
                demoThree in
  result.1
  = Throw (AppError.mk 503
             "Falha ao enviar request para face.verification.requests: Error: channel closed")
  ∧ pendingRequests result.2 = pendingRequests demoThree
  ∧ timers result.2 = timers demoThree
  ∧ ∃ envelope,
      trace result.2
      = (trace demoThree
           ++ [Publish "" "face.verification.requests" envelope
                       (Throw "Error: channel closed")])%list.
Proof.
  assert (isInitialized demoThree = true) as Hinit by (vm_compute; reflexivity).
  assert (JsMap.get "id-4" (pendingRequests demoThree) = None) as Hfresh
    by (vm_compute; reflexivity).
  destruct (publish_failure_unregisters
              "face.verification.requests" [("userId", JStr "u1")] None
              "id-4" "2025-01-01T00:00:01.000Z" "Error: channel closed"
              demoThree demoThree_reachable Hinit)
    as (H1 & _ & _ & H4 & H5 & _ & H7).
  split; [exact H1|]. split; [exact (H7 Hfresh)|]. split; [exact H4|].
  eexists. exact H5.
Defined.

(** The promise created for a call whose [publish] failed is referred to
    by no entry: nothing will ever settle it. The caller only sees the
    error thrown by [sendRequest]. *)
Lemma failed_publish_leaves_promise_pending
    queue request timeout uuid timestamp error s evs :
  Reachable s → isInitialized s = true →
  JsMap.get uuid (pendingRequests s) = None →
  let result := sendRequest queue request timeout uuid timestamp (Throw error) s in
  admissibleRun evs result.2 = true →
  promises (run evs result.2) !! nextPromise s = Some Pending.
Proof.
  intros Hs%Reachable_wf Hinit Hfresh result Hadm.
  apply run_orphan; try done.
  - apply wf_sendRequest; [done|]. simpl. by rewrite Hfresh.
  - unfold result. rewrite sendRequest_throws, register_eq by done.
    apply lookup_insert_eq.
  - unfold result. rewrite sendRequest_throws, register_eq by done.
    unfold unreferenced.
    cbn [snd with_pendingRequests clearTimeout with_timers emit pendingRequests].
    rewrite delete_set_fresh by done. intros id pending Hget Heq.
    destruct (wf_entry _ Hs _ _ Hget) as (_ & _ & Hq & _).
    pose proof (wf_fresh_promise _ Hs). congruence.
Qed.

(** C7, as the code has it. [sendRequest] does not look the identifier up
    before it stores the entry: it never fails on a collision. Whatever the
    registry held, the call returns its new promise and the identifier is
    bound to the new entry; the other entries are untouched. A fresh
    identifier adds one entry; an identifier already present has its entry
    replaced and the size stays the same. Freshness rests on [uuidv4()]
    alone. *)
Theorem sendRequest_does_not_check_collisions
    queue request timeout uuid timestamp b s :
  isInitialized s = true →
  let result := sendRequest queue request timeout uuid timestamp (Return b) s in
  result.1 = Return (nextPromise s)
  ∧ JsMap.get uuid (pendingRequests result.2)
    = Some (PendingRequest.mk (nextPromise s) (nextPromise s) (nextTimer s)
                              uuid (now s))
  ∧ (∀ id, id ≠ uuid →
       JsMap.get id (pendingRequests result.2) = JsMap.get id (pendingRequests s))
  ∧ (JsMap.get uuid (pendingRequests s) = None →
       JsMap.size (pendingRequests result.2) = S (JsMap.size (pendingRequests s)))
  ∧ (∀ old, JsMap.get uuid (pendingRequests s) = Some old →
       JsMap.size (pendingRequests result.2) = JsMap.size (pendingRequests s)).
Proof.
  intros Hinit result. unfold result.
  rewrite sendRequest_returns, register_eq by done.
  cbn [fst snd emit pendingRequests].
  split_and!.
  - done.
  - apply get_set_eq.
  - intros id Hne. by apply get_set_ne.
  - apply size_set_fresh.
  - intros old. apply size_set_present.
Qed.

Lemma sendRequest_does_not_check_collisions_witness :
  let result :=
    sendRequest "face.verification.requests" [("userId", JStr "u2")] (Some 5000)
                "id-2" "2025-01-01T00:00:00.100Z" (Return true) demoSend.2 in
  result.1 = Return 1%nat
  ∧ JsMap.size (pendingRequests result.2) = 2%nat.
Proof.
  assert (isInitialized demoSend.2 = true) as Hinit by (vm_compute; reflexivity).
  assert (JsMap.get "id-2" (pendingRequests demoSend.2) = None) as Hfresh
    by (vm_compute; reflexivity).
  destruct (sendRequest_does_not_check_collisions
              "face.verification.requests" [("userId", JStr "u2")] (Some 5000)
              "id-2" "2025-01-01T00:00:00.100Z" true demoSend.2 Hinit)
    as (H1 & _ & _ & H4 & _).
  split; [exact H1|exact (H4 Hfresh)].
Defined.

(** C7 fails as stated: with "id-1" registered for promise 0, a second
    [sendRequest] that draws "id-1" again does not fail; it returns promise
    1 and the entry of the first call is replaced by that of the second. *)
Lemma collision_overwrites_the_entry :
  let result :=
    sendRequest "face.verification.requests" [("userId", JStr "u2")] (Some 5000)
                "id-1" "2025-01-01T00:00:00.100Z" (Return true) demoSend.2 in
  JsMap.get "id-1" (pendingRequests demoSend.2)
  = Some (PendingRequest.mk 0 0 0 "id-1" 0)
  ∧ result.1 = Return 1%nat
  ∧ JsMap.get "id-1" (pendingRequests result.2)
    = Some (PendingRequest.mk 1 1 1 "id-1" 0)
  ∧ JsMap.size (pendingRequests result.2) = 1%nat.
Proof. vm_compute. by repeat split. Qed.

(** C8, as the code has it. A reply with [success: true] for a registered
    identifier fulfils the promise of the call with the response itself,
    the whole envelope, whose [data] field carries the payload. The entry
    and its timer are gone at once and the promise keeps that value. *)
Theorem success_resolves_with_response response s p :
  Reachable s →
  registeredCall s (BaseResponse.requestId response) p →
  BaseResponse.success response = true →
  let s' := handleResponse response s in
  promises s' !! p = Some (Fulfilled response)
  ∧ JsMap.get (BaseResponse.requestId response) (pendingRequests s') = None
  ∧ (∀ pending,
       JsMap.get (BaseResponse.requestId response) (pendingRequests s) = Some pending →
       timers s' !! PendingRequest.timeout pending = None)
  ∧ (∀ evs, admissibleRun evs s' = true →
            promises (run evs s') !! p = Some (Fulfilled response)).
Proof.
  intros Hs%Reachable_wf (pending & Hget & _ & <-) Hsucc s'.
  pose proof (handleResponse_ended _ _ _ Hs Hget) as Hend. rewrite Hsucc in Hend.
  destruct (ended_gone _ _ _ _ _ Hend) as (Hg & Ht & Hp). fold s' in Hg, Ht, Hp.
  split_and!; try done.
  - intros pending' Hget'. congruence.
  - intros evs Hadm. apply run_final; try done.
    by apply wf_handleResponse.
Qed.

Lemma success_resolves_with_response_witness :
  promises (handleResponse demoReply demoSend.2) !! 0%nat = Some (Fulfilled demoReply)
  ∧ JsMap.get "id-1" (pendingRequests (handleResponse demoReply demoSend.2)) = None.
Proof.
  assert (registeredCall demoSend.2 (BaseResponse.requestId demoReply) 0) as Hreg.
  { exists (PendingRequest.mk 0 0 0 "id-1" 0). vm_compute. by repeat split. }
  destruct (success_resolves_with_response demoReply demoSend.2 0%nat
              demoSend_reachable Hreg eq_refl) as (H1 & H2 & _).
  split; [exact H1|exact H2].
Defined.

(** C8 fails as stated: for the reply of the round-trip scenario the call
    is fulfilled with the envelope, which is not the payload
    [{verified: true, confidence: 0.93}]; the payload is its [data]. *)
Lemma resolved_value_is_not_the_payload :
  demoSend.1 = Return 0%nat
  ∧ promises (handleResponse demoReply demoSend.2) !! 0%nat
    = Some (Fulfilled demoReply)
  ∧ BaseResponse.data demoReply = Some demoPayload
  ∧ BaseResponse.toObject demoReply ≠ demoPayload.
Proof. vm_compute. by repeat split. Qed.

(** C9, as the code has it. A reply with [success: false] for a registered
    identifier rejects the promise of the call with an [AppError] built
    from the reply: its message is the remote message, or the default text
    when that is empty; its code is the number [parseInt(error.code, 10)],
    or 500 when that is [NaN] or zero. The reply of the remote-failure
    scenario gives code 404 and message "face not found". *)
Theorem failure_rejects_with_remote_error response s p :
  Reachable s →
  registeredCall s (BaseResponse.requestId response) p →
  BaseResponse.success response = false →
  let s' := handleResponse response s in
  promises s' !! p = Some (Rejected (remoteError (BaseResponse.error response)))
  ∧ JsMap.get (BaseResponse.requestId response) (pendingRequests s') = None
  ∧ (∀ e, BaseResponse.error response = Some e →
       AppError.code (remoteError (Some e))
       = match parseInt10 (BaseResponse.code e) with
         | Some n => if n =? 0 then 500 else n
         | None => 500
         end
       ∧ AppError.message (remoteError (Some e))
         = if String.eqb (BaseResponse.message e) ""
           then "Face recognition service error"
           else BaseResponse.message e)
  ∧ (∀ details,
       remoteError (Some (BaseResponse.mkError "404" "face not found" details))
       = AppError.mk 404 "face not found").
Proof.
  intros Hs%Reachable_wf (pending & Hget & _ & <-) Hsucc s'.
  pose proof (handleResponse_ended _ _ _ Hs Hget) as Hend. rewrite Hsucc in Hend.
  destruct (ended_gone _ _ _ _ _ Hend) as (Hg & _ & Hp). fold s' in Hg, Hp.
  split_and!; try done.
  intros e _. split; [apply remoteError_code|apply remoteError_message].
Qed.

Lemma failure_rejects_with_remote_error_witness :
  promises (handleResponse (demoFailure "404" "face not found") demoSend.2) !! 0%nat
  = Some (Rejected (AppError.mk 404 "face not found")).
Proof.
  assert (registeredCall demoSend.2
            (BaseResponse.requestId (demoFailure "404" "face not found")) 0) as Hreg.
  { exists (PendingRequest.mk 0 0 0 "id-1" 0). vm_compute. by repeat split. }
  exact (proj1 (failure_rejects_with_remote_error
                  (demoFailure "404" "face not found") demoSend.2 0%nat
                  demoSend_reachable Hreg eq_refl)).
Defined.

(** C9 fails as stated: a remote code that is not a number is not carried
    over; the error the call is rejected with has code 500. *)
Lemma remote_code_is_not_carried_verbatim :
  promises (handleResponse (demoFailure "FACE_NOT_FOUND" "face not found")
                           demoSend.2) !! 0%nat
  = Some (Rejected (AppError.mk 500 "face not found"))
  ∧ showZ 500 ≠ "FACE_NOT_FOUND".
Proof. vm_compute. by split. Qed.

(** C10, as the code has it. For a reply with [success: false] to a
    registered identifier: without an [error] object the call is rejected
    with code 500 and message "Face recognition service error"; with an
    [error] whose [code] does not parse as a decimal integer the code is
    500 as well, a non-empty message is kept, and an empty message is
    replaced by the default text. *)
Theorem remote_error_defaults response s p :
  Reachable s →
  registeredCall s (BaseResponse.requestId response) p →
  BaseResponse.success response = false →
  let s' := handleResponse response s in
  (BaseResponse.error response = None →
     promises s' !! p
     = Some (Rejected (AppError.mk 500 "Face recognition service error")))
  ∧ (∀ e, BaseResponse.error response = Some e →
          parseInt10 (BaseResponse.code e) = None →
          ∃ err,
            promises s' !! p = Some (Rejected err)
            ∧ AppError.code err = 500
            ∧ (BaseResponse.message e ≠ "" →
                 AppError.message err = BaseResponse.message e)
            ∧ (BaseResponse.message e = "" →
                 AppError.message err = "Face recognition service error")).
Proof.
  intros Hs%Reachable_wf (pending & Hget & _ & <-) Hsucc s'.
  pose proof (handleResponse_ended _ _ _ Hs Hget) as Hend. rewrite Hsucc in Hend.
  destruct (ended_gone _ _ _ _ _ Hend) as (_ & _ & Hp). fold s' in Hp.
  split.
  - intros Herr. by rewrite Hp, Herr.
  - intros e Herr Hnan. eexists. split; [by rewrite Hp, Herr|].
    rewrite remoteError_code, remoteError_message, Hnan. split_and!.
    + done.
    + intros Hne. apply String.eqb_neq in Hne. by rewrite Hne.
    + intros ->. done.
Qed.

Lemma remote_error_defaults_witness :
  promises (handleResponse (demoFailure "E_NO_FACE" "no face in the picture")
                           demoSend.2) !! 0%nat
  = Some (Rejected (remoteError (Some (BaseResponse.mkError
                                         "E_NO_FACE" "no face in the picture" None))))
  ∧ AppError.code (remoteError (Some (BaseResponse.mkError
                                        "E_NO_FACE" "no face in the picture" None)))
    = 500
  ∧ AppError.message (remoteError (Some (BaseResponse.mkError
                                           "E_NO_FACE" "no face in the picture" None)))
    = "no face in the picture".
Proof.
  assert (registeredCall demoSend.2
            (BaseResponse.requestId (demoFailure "E_NO_FACE" "no face in the picture"))
            0) as Hreg.
  { exists (PendingRequest.mk 0 0 0 "id-1" 0). vm_compute. by repeat split. }
  destruct (proj2 (remote_error_defaults
                     (demoFailure "E_NO_FACE" "no face in the picture") demoSend.2
                     0%nat demoSend_reachable Hreg eq_refl)
                  _ eq_refl eq_refl)
    as (err & Hp & Hcode & Hmsg & _).
  assert (Some (Rejected err)
          = Some (Rejected (remoteError (Some (BaseResponse.mkError
                                                 "E_NO_FACE" "no face in the picture"
                                                 None))))) as Heq.
  { rewrite <- Hp. vm_compute. reflexivity. }
  injection Heq as ->.
  split; [exact Hp|]. split; [exact Hcode|].
  apply Hmsg. discriminate.
Defined.

(** C10 fails as stated: with a code that does not parse and an empty
    message, the message of the reply is not kept; the call is rejected
    with the default text. *)
Lemma empty_message_is_replaced :
  parseInt10 "E_NO_FACE" = None
  ∧ promises (handleResponse (demoFailure "E_NO_FACE" "") demoSend.2) !! 0%nat
    = Some (Rejected (AppError.mk 500 "Face recognition service error"))
  ∧ "Face recognition service error" ≠ "".
Proof. vm_compute. by repeat split. Qed.

(** Replies may come in any order: each finds its own call. *)
Example out_of_order_replies :
  let replyFor id :=
    BaseResponse.mk id "2025-01-01T00:00:00.050Z" true None [("data", JStr id)] in
  let s := run [Deliver (replyFor "id-2"); Deliver (replyFor "id-1")] demoThree in
  promises s !! 0%nat = Some (Fulfilled (replyFor "id-1"))
  ∧ promises s !! 1%nat = Some (Fulfilled (replyFor "id-2"))
  ∧ promises s !! 2%nat = Some Pending
  ∧ JsMap.size (pendingRequests s) = 1%nat.
Proof. vm_compute. by repeat split. Qed.

(* ===================================================================== *)
(** * Beyond the specification                                            *)
(* ===================================================================== *)

(** ** [AttendanceDiscountService] *)

Section DiscountFacts.
Import AttendanceDiscountService.

Lemma lateMinutes_eq type timestamp shiftStart shiftEnd shiftValue :
  LateDiscountInfo.lateMinutes
    (calculateTimeBasedDiscount type timestamp shiftStart shiftEnd shiftValue)
  = Z.max 0 (lateness type timestamp shiftStart shiftEnd / 60000).
Proof.
  unfold calculateTimeBasedDiscount, lateness. change (1000 * 60) with 60000.
  destruct type.
  - destruct (shiftStart <? timestamp) eqn:E; cbn.
    + apply Z.ltb_lt in E.
      assert (0 ≤ (timestamp - shiftStart) / 60000) by (apply Z.div_pos; lia). lia.
    + apply Z.ltb_ge in E.
      assert ((timestamp - shiftStart) / 60000 ≤ 0)
        by (apply Z.div_le_upper_bound; lia). lia.
  - destruct (timestamp <? shiftEnd) eqn:E; cbn.
    + apply Z.ltb_lt in E.
      assert (0 ≤ (shiftEnd - timestamp) / 60000) by (apply Z.div_pos; lia). lia.
    + apply Z.ltb_ge in E.
      assert ((shiftEnd - timestamp) / 60000 ≤ 0)
        by (apply Z.div_le_upper_bound; lia). lia.
Qed.

(** The percentage in closed form: nothing up to 15 minutes 59 seconds,
    then one point per complete quarter of an hour, fifty at most. *)
Lemma discountPercentage_eq type timestamp shiftStart shiftEnd shiftValue :
  LateDiscountInfo.discountPercentage
    (calculateTimeBasedDiscount type timestamp shiftStart shiftEnd shiftValue)
  = let late := lateness type timestamp shiftStart shiftEnd in
    if 960000 <=? late then Z.min (late / 900000) 50 else 0.
Proof.
  assert (∀ x, 0 < x →
            (if true && (15 <? x / 60000) then Z.min (x / 60000 / 15 * 1) 50 else 0)
            = if 960000 <=? x then Z.min (x / 900000) 50 else 0) as Hlate.
  { intros x Hx. cbn [andb].
    rewrite Z.mul_1_r, Z.div_div by lia. change (60000 * 15) with 900000.
    destruct (960000 <=? x) eqn:E.
    - apply Z.leb_le in E.
      assert (16 ≤ x / 60000) by (apply Z.div_le_lower_bound; lia).
      by destruct (15 <? x / 60000) eqn:E'; [|apply Z.ltb_ge in E'; lia].
    - apply Z.leb_gt in E.
      assert (x / 60000 < 16) by (apply Z.div_lt_upper_bound; lia).
      by destruct (15 <? x / 60000) eqn:E'; [apply Z.ltb_lt in E'; lia|]. }
  unfold calculateTimeBasedDiscount, lateness. cbv zeta.
  change (1000 * 60) with 60000.
  destruct type.
  - destruct (shiftStart <? timestamp) eqn:E; cbn [LateDiscountInfo.discountPercentage].
    + apply Z.ltb_lt in E. apply Hlate. lia.
    + apply Z.ltb_ge in E. cbn [andb].
      by destruct (960000 <=? timestamp - shiftStart) eqn:E'; [apply Z.leb_le in E'; lia|].
  - destruct (timestamp <? shiftEnd) eqn:E; cbn [LateDiscountInfo.discountPercentage].
    + apply Z.ltb_lt in E. apply Hlate. lia.
    + apply Z.ltb_ge in E. cbn [andb].
      by destruct (960000 <=? shiftEnd - timestamp) eqn:E'; [apply Z.leb_le in E'; lia|].
Qed.

Lemma time_discount_bounds type timestamp shiftStart shiftEnd shiftValue :
  0 ≤ LateDiscountInfo.discountPercentage
        (calculateTimeBasedDiscount type timestamp shiftStart shiftEnd shiftValue)
  ≤ 50.
Proof.
  rewrite discountPercentage_eq. cbv zeta.
  destruct (960000 <=? _) eqn:E; [|lia].
  apply Z.leb_le in E.
  assert (0 ≤ lateness type timestamp shiftStart shiftEnd / 900000)
    by (apply Z.div_pos; lia). lia.
Qed.

Lemma calculateShiftDiscountInfo_loop attendances total discounts :
  fold_left addAttendance attendances (total, discounts)
  = (total + sumZ (appliedPercentages attendances),
     (discounts ++ (discountOf <$> attendances))%list).
Proof.
  revert total discounts.
  induction attendances as [|att attendances IH]; intros total discounts.
  - cbn. f_equal; [lia|by rewrite app_nil_r].
  - cbn [fold_left]. unfold addAttendance at 2.
    rewrite IH, fmap_cons, <- app_assoc. unfold appliedPercentages, discountOf.
    cbn [List.filter app].
    destruct (Attendance.approvedWithDiscount att
              && (0 <? Attendance.discountPercentage att));
      rewrite ?fmap_cons; unfold sumZ; cbn [fold_right]; f_equal; lia.
Qed.

Lemma sumZ_applied_nonneg attendances : 0 ≤ sumZ (appliedPercentages attendances).
Proof.
  unfold appliedPercentages.
  induction attendances as [|att attendances IH]; cbn; [done|].
  destruct (Attendance.approvedWithDiscount att) ; cbn; [|done].
  destruct (0 <? Attendance.discountPercentage att) eqn:E; cbn; [|done].
  apply Z.ltb_lt in E. unfold sumZ in IH. lia.
Qed.

Lemma totalDiscountPercentage_eq originalValue attendances :
  ShiftDiscountInfo.totalDiscountPercentage
    (calculateShiftDiscountInfo originalValue attendances)
  = Z.min (sumZ (appliedPercentages attendances)) 100.
Proof.
  unfold calculateShiftDiscountInfo. by rewrite calculateShiftDiscountInfo_loop.
Qed.

(** X1. [calculateTimeBasedDiscount] in closed form, for valid dates
    whose distance is within what doubles subtract exactly. A punch counts
    as late as soon as it is on the wrong side of the hour; the discount
    starts at sixteen minutes and is one point per complete quarter of an
    hour, fifty at most; it applies exactly when it is not zero. *)
Theorem time_discount_by_quarter_hours type timestamp shiftStart shiftEnd shiftValue :
  validDate timestamp → validDate shiftStart → validDate shiftEnd →
  Z.abs (lateness type timestamp shiftStart shiftEnd) ≤ 2 ^ 53 →
  let info := calculateTimeBasedDiscount type timestamp shiftStart shiftEnd shiftValue in
  let late := lateness type timestamp shiftStart shiftEnd in
  LateDiscountInfo.isLate info = (0 <? late)
  ∧ LateDiscountInfo.lateMinutes info = Z.max 0 (late / 60000)
  ∧ LateDiscountInfo.discountPercentage info
    = (if 960000 <=? late then Z.min (late / 900000) 50 else 0)
  ∧ LateDiscountInfo.shouldApplyDiscount info = (960000 <=? late).
Proof.
  intros _ _ _ _. cbv zeta. split_and!.
  - unfold calculateTimeBasedDiscount, lateness. destruct type.
    + destruct (shiftStart <? timestamp) eqn:E; cbn; symmetry.
      * apply Z.ltb_lt in E. apply Z.ltb_lt. lia.
      * apply Z.ltb_ge in E. apply Z.ltb_ge. lia.
    + destruct (timestamp <? shiftEnd) eqn:E; cbn; symmetry.
      * apply Z.ltb_lt in E. apply Z.ltb_lt. lia.
      * apply Z.ltb_ge in E. apply Z.ltb_ge. lia.
  - apply lateMinutes_eq.
  - apply discountPercentage_eq.
  - pose proof (discountPercentage_eq type timestamp shiftStart shiftEnd shiftValue) as Hd.
    cbv zeta in Hd.
    assert (LateDiscountInfo.shouldApplyDiscount
              (calculateTimeBasedDiscount type timestamp shiftStart shiftEnd shiftValue)
            = (0 <? lateness type timestamp shiftStart shiftEnd)
              && (0 <? LateDiscountInfo.discountPercentage
                         (calculateTimeBasedDiscount type timestamp shiftStart shiftEnd
                                                     shiftValue))) as ->.
    { unfold calculateTimeBasedDiscount, lateness. destruct type.
      - destruct (shiftStart <? timestamp) eqn:E; cbn.
        + apply Z.ltb_lt in E. symmetry.
          by replace (0 <? timestamp - shiftStart) with true by (symmetry; apply Z.ltb_lt; lia).
        + apply Z.ltb_ge in E. symmetry.
          by replace (0 <? timestamp - shiftStart) with false by (symmetry; apply Z.ltb_ge; lia).
      - destruct (timestamp <? shiftEnd) eqn:E; cbn.
        + apply Z.ltb_lt in E. symmetry.
          by replace (0 <? shiftEnd - timestamp) with true by (symmetry; apply Z.ltb_lt; lia).
        + apply Z.ltb_ge in E. symmetry.
          by replace (0 <? shiftEnd - timestamp) with false by (symmetry; apply Z.ltb_ge; lia). }
    rewrite Hd. set (late := lateness type timestamp shiftStart shiftEnd).
    destruct (960000 <=? late) eqn:E.
    + apply Z.leb_le in E.
      assert (1 ≤ late / 900000) by (apply Z.div_le_lower_bound; lia).
      apply andb_true_iff. split; apply Z.ltb_lt; lia.
    + by rewrite andb_false_r.
Qed.

Lemma time_discount_by_quarter_hours_witness :
  let info := calculateTimeBasedDiscount IN 1735722000000 1735720200000
                                         1735749000000 (200 # 1) in
  let late := lateness IN 1735722000000 1735720200000 1735749000000 in
  LateDiscountInfo.isLate info = (0 <? late)
  ∧ LateDiscountInfo.lateMinutes info = Z.max 0 (late / 60000)
  ∧ LateDiscountInfo.discountPercentage info
    = (if 960000 <=? late then Z.min (late / 900000) 50 else 0)
  ∧ LateDiscountInfo.shouldApplyDiscount info = (960000 <=? late).
Proof.
  apply time_discount_by_quarter_hours; vm_compute; discriminate.
Defined.

(** X2. Whatever the punch and the shift, the discount of
    [calculateTimeBasedDiscount] is a whole percentage between 0 and 50,
    the minutes it reports are not negative, and the value of the shift
    plays no part in it. *)
Theorem time_discount_range type timestamp shiftStart shiftEnd shiftValue shiftValue' :
  let info := calculateTimeBasedDiscount type timestamp shiftStart shiftEnd shiftValue in
  0 ≤ LateDiscountInfo.lateMinutes info
  ∧ 0 ≤ LateDiscountInfo.discountPercentage info ≤ 50
  ∧ info = calculateTimeBasedDiscount type timestamp shiftStart shiftEnd shiftValue'.
Proof.
  cbv zeta. rewrite lateMinutes_eq, discountPercentage_eq. cbv zeta.
  split_and!; [lia| | |done].
  - destruct (960000 <=? _) eqn:E; [|done].
    apply Z.leb_le in E.
    assert (0 ≤ lateness type timestamp shiftStart shiftEnd / 900000)
      by (apply Z.div_pos; lia). lia.
  - destruct (960000 <=? _); lia.
Qed.

(** X3. The later the punch is on the wrong side of its hour, the larger
    the discount: [calculateTimeBasedDiscount] is monotone in the
    lateness, for check-ins and check-outs alike. *)
Theorem time_discount_monotone
    type timestamp shiftStart shiftEnd shiftValue
    type' timestamp' shiftStart' shiftEnd' shiftValue' :
  lateness type timestamp shiftStart shiftEnd
    ≤ lateness type' timestamp' shiftStart' shiftEnd' →
  LateDiscountInfo.discountPercentage
    (calculateTimeBasedDiscount type timestamp shiftStart shiftEnd shiftValue)
  ≤ LateDiscountInfo.discountPercentage
      (calculateTimeBasedDiscount type' timestamp' shiftStart' shiftEnd' shiftValue').
Proof.
  intros Hle. rewrite !discountPercentage_eq. cbv zeta.
  set (a := lateness type timestamp shiftStart shiftEnd) in *.
  set (b := lateness type' timestamp' shiftStart' shiftEnd') in *.
  assert (a / 900000 ≤ b / 900000) by (apply Z.div_le_mono; lia).
  assert (960000 ≤ b → 1 ≤ b / 900000)
    by (intros; apply Z.div_le_lower_bound; lia).
  destruct (960000 <=? a) eqn:Ea, (960000 <=? b) eqn:Eb; lia.
Qed.

Lemma time_discount_monotone_witness :
  LateDiscountInfo.discountPercentage
    (calculateTimeBasedDiscount IN 1860000 0 28800000 (200 # 1))
  ≤ LateDiscountInfo.discountPercentage
      (calculateTimeBasedDiscount OUT 0 0 2700000 (200 # 1)).
Proof. apply time_discount_monotone. vm_compute. discriminate. Defined.

(** X4. The total of [calculateShiftDiscountInfo] is the sum of the
    percentages of the attendances that are approved with a discount and
    have a positive percentage, cut at 100; it lies between 0 and 100
    whatever the percentages of the others. *)
Theorem shift_total_is_capped_sum originalValue attendances :
  let info := calculateShiftDiscountInfo originalValue attendances in
  ShiftDiscountInfo.totalDiscountPercentage info
    = Z.min (sumZ (appliedPercentages attendances)) 100
  ∧ 0 ≤ ShiftDiscountInfo.totalDiscountPercentage info ≤ 100
  ∧ ShiftDiscountInfo.originalValue info = originalValue.
Proof.
  cbv zeta. rewrite totalDiscountPercentage_eq.
  pose proof (sumZ_applied_nonneg attendances).
  split_and!; [done|lia|lia|].
  unfold calculateShiftDiscountInfo. by rewrite calculateShiftDiscountInfo_loop.
Qed.

(** X5. [calculateShiftDiscountInfo] reports one line per attendance, in
    the order given, each with the attendance's own identifier, type and
    percentage; a line is marked applied exactly when the attendance is
    approved with a discount and its percentage is positive. *)
Theorem shift_discounts_follow_attendances originalValue attendances :
  ShiftDiscountInfo.attendanceDiscounts
    (calculateShiftDiscountInfo originalValue attendances)
  = discountOf <$> attendances.
Proof.
  unfold calculateShiftDiscountInfo. by rewrite calculateShiftDiscountInfo_loop.
Qed.

(** X6. In exact arithmetic the final value of a shift whose value is not
    negative lies between zero and that value, and it is the value itself
    when no attendance has a discount applied. *)
Theorem shift_final_value_range originalValue attendances :
  (0 <= originalValue)%Q →
  let info := calculateShiftDiscountInfo originalValue attendances in
  (0 <= ShiftDiscountInfo.finalValue info)%Q
  ∧ (ShiftDiscountInfo.finalValue info <= originalValue)%Q
  ∧ (appliedPercentages attendances = [] →
     (ShiftDiscountInfo.finalValue info == originalValue)%Q).
Proof.
  intros Hv. cbv zeta.
  pose proof (sumZ_applied_nonneg attendances) as Hsum.
  unfold calculateShiftDiscountInfo. rewrite calculateShiftDiscountInfo_loop.
  cbn [ShiftDiscountInfo.finalValue]. rewrite Z.add_0_l.
  set (t := Z.min (sumZ (appliedPercentages attendances)) 100).
  assert (0 <= inject_Z t)%Q as H0 by (rewrite <- (Zle_Qle 0); lia).
  assert (inject_Z t <= 100)%Q as H100 by (rewrite <- (Zle_Qle _ 100); lia).
  assert (∀ q, 0 <= q → q <= 100 →
               0 <= originalValue * (1 - q / 100)
               ∧ originalValue * (1 - q / 100) <= originalValue)%Q as Hq.
  { intros q Hq0 Hq100.
    assert (q / 100 <= 1)%Q by (apply Qle_shift_div_r; [reflexivity|lra]).
    assert (0 <= q / 100)%Q by (apply Qle_shift_div_l; [reflexivity|lra]).
    set (c := (q / 100)%Q) in *. split.
    - apply Qmult_le_0_compat; [done|]. lra.
    - rewrite <- (Qmult_1_r originalValue) at 2.
      apply Qmult_le_compat_nonneg; split; try done; lra. }
  split_and!; [by apply Hq..|].
  intros Hnone. subst t. rewrite Hnone.
  change (inject_Z (Z.min (sumZ []) 100) / 100)%Q with (0 # 100)%Q.
  assert (1 - (0 # 100) == 1)%Q as -> by reflexivity.
  apply Qmult_1_r.
Qed.

Lemma shift_final_value_range_witness :
  let info :=
    calculateShiftDiscountInfo (200 # 1)
      [Attendance.mk "a1" IN 2 true; Attendance.mk "a2" OUT 7 false] in
  (0 <= ShiftDiscountInfo.finalValue info)%Q
  ∧ (ShiftDiscountInfo.finalValue info <= 200 # 1)%Q
  ∧ (appliedPercentages
       [Attendance.mk "a1" IN 2 true; Attendance.mk "a2" OUT 7 false] = [] →
     (ShiftDiscountInfo.finalValue info == 200 # 1)%Q).
Proof. apply shift_final_value_range. vm_compute. discriminate. Defined.

(** X7. The two punches of one shift: when the percentages of the
    check-in and of the check-out are the ones [calculateTimeBasedDiscount]
    gives, [calculateShiftDiscountInfo] adds up those that are approved,
    and the limit of 100 never cuts the total. *)
Theorem in_and_out_discounts_add_up
    shiftValue shiftStart shiftEnd id1 timestamp1 approved1 id2 timestamp2 approved2 :
  let percentage type timestamp :=
    LateDiscountInfo.discountPercentage
      (calculateTimeBasedDiscount type timestamp shiftStart shiftEnd shiftValue) in
  ShiftDiscountInfo.totalDiscountPercentage
    (calculateShiftDiscountInfo shiftValue
       [Attendance.mk id1 IN (percentage IN timestamp1) approved1;
        Attendance.mk id2 OUT (percentage OUT timestamp2) approved2])
  = (if approved1 then percentage IN timestamp1 else 0)
    + (if approved2 then percentage OUT timestamp2 else 0).
Proof.
  cbv zeta. rewrite totalDiscountPercentage_eq.
  pose proof (time_discount_bounds IN timestamp1 shiftStart shiftEnd shiftValue) as H1.
  pose proof (time_discount_bounds OUT timestamp2 shiftStart shiftEnd shiftValue) as H2.
  revert H1 H2.
  generalize (LateDiscountInfo.discountPercentage
                (calculateTimeBasedDiscount IN timestamp1 shiftStart shiftEnd shiftValue)).
  generalize (LateDiscountInfo.discountPercentage
                (calculateTimeBasedDiscount OUT timestamp2 shiftStart shiftEnd shiftValue)).
  intros d2 d1 H1 H2. unfold appliedPercentages, sumZ.
  cbn [List.filter Attendance.approvedWithDiscount Attendance.discountPercentage].
  destruct approved1, approved2, (0 <? d1) eqn:E1, (0 <? d2) eqn:E2;
    cbn [andb fmap list_fmap fold_right Attendance.discountPercentage]; lia.
Qed.

End DiscountFacts.

(** ** What a promise can end up holding *)

Lemma settle_lookup p st s q st0 :
  promises (settle p st s) !! q = Some st0 →
  st0 = st ∨ promises s !! q = Some st0.
Proof.
  settle_cases; cbn; eauto.
  destruct (decide (q = p)) as [->|Hne].
  - rewrite lookup_insert_eq. intros [= <-]. by left.
  - rewrite lookup_insert_ne by done. by right.
Qed.

Lemma settledAll_settle p st s :
  settledByService st → settledAll s → settledAll (settle p st s).
Proof. intros Hst Hs q st0 [->|H]%settle_lookup; [done|by apply (Hs q)]. Qed.

Lemma settledAll_same s s' : promises s' = promises s → settledAll s → settledAll s'.
Proof. intros Heq Hs q st0. rewrite Heq. apply Hs. Qed.

Lemma settledAll_handleResponse response s :
  settledAll s → settledAll (handleResponse response s).
Proof.
  intros Hs. unfold handleResponse. cbv zeta.
  destruct (JsMap.get _ _) as [pending|]; [|by apply (settledAll_same s)].
  destruct (BaseResponse.success response) eqn:Hsuccess.
  - apply settledAll_settle; [done|]. by apply (settledAll_same s).
  - apply settledAll_settle; [|by apply (settledAll_same s)].
    right. right. eauto.
Qed.

Lemma settledAll_fire h s : settledAll s → settledAll (fire h s).
Proof.
  intros Hs. unfold fire. destruct (timers s !! h) as [tm|]; [|done].
  unfold timeoutCallback. apply settledAll_settle; [|by apply (settledAll_same s)].
  right. left. eauto.
Qed.

Lemma settledAll_advanceTo t s : settledAll s → settledAll (advanceTo t s).
Proof.
  intros Hs. unfold advanceTo. destruct (t <? now s); [done|].
  apply (settledAll_same (fold_left (λ s ht, fire ht.1 s) (dueTimers t s) s)); [done|].
  generalize (dueTimers t s). intros l. revert s Hs.
  induction l as [|ht l IH]; intros s Hs; cbn [fold_left]; [done|].
  by apply IH, settledAll_fire.
Qed.

Lemma settledAll_cleanup s : settledAll s → settledAll (cleanup s).
Proof.
  intros Hs. unfold cleanup. cbv zeta. set (s0 := emit (ConsoleLog _) s).
  assert (settledAll s0) as Hs0 by by apply (settledAll_same s).
  apply (settledAll_same (fold_left cleanupEntry (JsMap.entries (pendingRequests s0)) s0));
    [done|].
  generalize (JsMap.entries (pendingRequests s0)). intros l. clearbody s0. revert s0 Hs0.
  induction l as [|[id pending] l IH]; intros s0 Hs0; cbn [fold_left]; [done|].
  apply IH. unfold cleanupEntry.
  apply (settledAll_same
           (rejectPromise (PendingRequest.reject pending) shuttingDown
              (clearTimeout (PendingRequest.timeout pending) s0))); [done|].
  apply settledAll_settle; [by left|by apply (settledAll_same s0)].
Qed.

Lemma settledAll_step s ev : settledAll s → settledAll (step s ev).
Proof.
  intros Hs.
  destruct ev as [aq cs|queue request timeout uuid timestamp publish|response|t|];
    cbn [step].
  - apply (settledAll_same s); [|done]. apply initialize_fields.
  - destruct (isInitialized s) eqn:Hinit; [|by rewrite sendRequest_uninitialized].
    assert (settledAll (register uuid (default 30000 timeout) s).2) as Hreg.
    { rewrite register_eq. intros p st. cbn [snd promises].
      destruct (decide (p = nextPromise s)) as [->|Hne].
      - rewrite lookup_insert_eq. by intros [= <-].
      - rewrite lookup_insert_ne by done. apply Hs. }
    destruct publish.
    + rewrite sendRequest_returns by done. by eapply settledAll_same, Hreg.
    + rewrite sendRequest_throws by done. by eapply settledAll_same, Hreg.
  - by apply settledAll_handleResponse.
  - by apply settledAll_advanceTo.
  - by apply settledAll_cleanup.
Qed.

(** X8. Whatever happens to the service, a promise it handed out is
    pending, or fulfilled with a response whose [success] is true, or
    rejected with one of the three errors the service makes: the shutdown
    error, a time-out error, or the error made from a failed response. A
    caller that awaits [sendRequest] never receives an unsuccessful
    response as a value. *)
Theorem promises_hold_what_the_service_put queue clock evs p st :
  promises (run evs (create queue clock)) !! p = Some st →
  settledByService st.
Proof.
  revert p st. change (settledAll (run evs (create queue clock))).
  assert (settledAll (create queue clock)) as H0.
  { intros p st. cbn. by rewrite lookup_empty. }
  revert H0. unfold run. generalize (create queue clock).
  induction evs as [|ev evs IH]; intros s Hs; cbn [fold_left]; [done|].
  by apply IH, settledAll_step.
Qed.

Lemma promises_hold_what_the_service_put_witness :
  settledByService
    (Rejected (remoteError (Some (BaseResponse.mkError "404" "no face" None)))).
Proof.
  apply (promises_hold_what_the_service_put None 0
           [Initialize (Return ()) (Return ());
            demoRequest "id-1" (Return true);
            Deliver (demoFailure "404" "no face")] 0%nat).
  vm_compute. reflexivity.
Defined.

(** ** The flag and the transport, one callback at a time *)

Lemma transportCalls_app l1 l2 :
  transportCalls (l1 ++ l2) = (transportCalls l1 ++ transportCalls l2)%list.
Proof. apply List.filter_app. Qed.

Lemma handleResponse_frame response s :
  isInitialized (handleResponse response s) = isInitialized s
  ∧ replyQueue (handleResponse response s) = replyQueue s
  ∧ transportCalls (trace (handleResponse response s)) = transportCalls (trace s).
Proof.
  unfold handleResponse. cbv zeta.
  destruct (JsMap.get _ _) as [pending|].
  - destruct (BaseResponse.success response);
      unfold resolvePromise, rejectPromise;
      rewrite settle_isInitialized, settle_replyQueue, settle_trace;
      cbn [isInitialized replyQueue trace emit with_pendingRequests clearTimeout with_timers];
      rewrite !transportCalls_app, !app_nil_r; done.
  - cbn [isInitialized replyQueue trace emit].
    by rewrite !transportCalls_app, !app_nil_r.
Qed.

Lemma fire_frame h s :
  isInitialized (fire h s) = isInitialized s
  ∧ replyQueue (fire h s) = replyQueue s
  ∧ trace (fire h s) = trace s.
Proof.
  unfold fire. destruct (timers s !! h) as [tm|]; [|done].
  unfold timeoutCallback, rejectPromise.
  by rewrite settle_isInitialized, settle_replyQueue, settle_trace.
Qed.

Lemma fires_frame (l : list (nat * Timer)) s :
  let s' := fold_left (λ s ht, fire ht.1 s) l s in
  isInitialized s' = isInitialized s
  ∧ replyQueue s' = replyQueue s
  ∧ trace s' = trace s.
Proof.
  revert s. induction l as [|ht l IH]; intros s; cbn [fold_left]; [done|].
  destruct (IH (fire ht.1 s)) as (-> & -> & ->). apply fire_frame.
Qed.

Lemma advanceTo_frame t s :
  isInitialized (advanceTo t s) = isInitialized s
  ∧ replyQueue (advanceTo t s) = replyQueue s
  ∧ trace (advanceTo t s) = trace s.
Proof.
  unfold advanceTo. destruct (t <? now s); [done|].
  apply (fires_frame (dueTimers t s) s).
Qed.

Lemma cleanupEntries_frame l s :
  let s' := fold_left cleanupEntry l s in
  replyQueue s' = replyQueue s ∧ trace s' = trace s.
Proof.
  revert s. induction l as [|[id pending] l IH]; intros s; cbn [fold_left]; [done|].
  destruct (IH (cleanupEntry s (id, pending))) as (-> & ->).
  unfold cleanupEntry, rejectPromise. cbn [replyQueue trace with_pendingRequests].
  by rewrite settle_replyQueue, settle_trace.
Qed.

Lemma cleanup_frame s :
  isInitialized (cleanup s) = false
  ∧ replyQueue (cleanup s) = replyQueue s
  ∧ transportCalls (trace (cleanup s)) = transportCalls (trace s).
Proof.
  unfold cleanup. cbv zeta. set (s0 := emit (ConsoleLog _) s).
  destruct (cleanupEntries_frame (JsMap.entries (pendingRequests s0)) s0) as (Hq & Htr).
  cbv zeta in Hq, Htr.
  cbn [isInitialized replyQueue trace emit with_isInitialized].
  rewrite Hq, Htr. subst s0. cbn [replyQueue trace emit].
  by rewrite !transportCalls_app, !app_nil_r.
Qed.

Lemma isInitialized_step s ev :
  isInitialized (step s ev) = flagAfter (isInitialized s) ev.
Proof.
  destruct ev as [aq cs|queue request timeout uuid timestamp publish|response|t|];
    cbn [step flagAfter].
  - unfold initialize. destruct (isInitialized s) eqn:E.
    + cbn. rewrite E. by destruct aq as [[]|], cs as [[]|].
    + by destruct aq as [[]|], cs as [[]|].
  - destruct (isInitialized s) eqn:Hinit; [|by rewrite sendRequest_uninitialized].
    destruct publish.
    + by rewrite sendRequest_returns, register_eq.
    + by rewrite sendRequest_throws, register_eq.
  - apply handleResponse_frame.
  - apply advanceTo_frame.
  - apply cleanup_frame.
Qed.

(** X9. The service accepts requests exactly between an [initialize] that
    succeeded and the next [cleanup]: it starts closed, a failed
    [initialize] changes nothing, replies and timers do not matter, and
    while it is closed every [sendRequest] throws the 500 error and leaves
    the state as it was. *)
Theorem accepts_requests_between_initialize_and_cleanup
    queue clock evs destination request timeout uuid timestamp publish :
  let s := run evs (create queue clock) in
  let sent := sendRequest destination request timeout uuid timestamp publish s in
  isInitialized s = fold_left flagAfter evs false
  ∧ (fold_left flagAfter evs false = false ↔ sent.1 = Throw notInitialized)
  ∧ (fold_left flagAfter evs false = false → sent.2 = s).
Proof.
  cbv zeta.
  assert (isInitialized (run evs (create queue clock)) = fold_left flagAfter evs false)
    as Hflag.
  { change false with (isInitialized (create queue clock)) at 1.
    unfold run. generalize (create queue clock).
    induction evs as [|ev evs IH]; intros s; cbn [fold_left]; [done|].
    by rewrite IH, isInitialized_step. }
  rewrite <- Hflag. set (s := run evs (create queue clock)).
  split_and!; [done| |].
  - destruct (isInitialized s) eqn:Hinit.
    + split; [done|]. destruct publish.
      * by rewrite sendRequest_returns.
      * by rewrite sendRequest_throws.
    + by rewrite sendRequest_uninitialized.
  - intros Hinit. by rewrite sendRequest_uninitialized.
Qed.

(** X10. What each callback asks of the broker. A reply, a move of the
    clock and [cleanup] ask nothing: in particular [cleanup] neither
    cancels the consumer nor deletes the reply queue. [sendRequest]
    publishes once, on the default exchange, when the service is
    initialized and not at all otherwise. [initialize] asserts the reply
    queue and, only if that succeeded, starts one consumer without
    acknowledgements; on a service already initialized it asks nothing. *)
Theorem transport_calls_of_each_callback s ev :
  transportCalls (trace (step s ev))
  = (transportCalls (trace s) ++ callsOf s ev)%list.
Proof.
  destruct ev as [aq cs|queue request timeout uuid timestamp publish|response|t|];
    cbn [step callsOf].
  - unfold initialize. destruct (isInitialized s).
    + cbn [snd trace emit]. by rewrite transportCalls_app.
    + destruct aq as [[]|error]; [destruct cs as [[]|error]|];
        cbn [snd trace emit with_isInitialized replyQueue];
        rewrite !transportCalls_app, <- ?app_assoc; cbn; by rewrite ?app_nil_r.
  - destruct (isInitialized s) eqn:Hinit;
      [|by rewrite sendRequest_uninitialized, app_nil_r].
    destruct publish.
    + rewrite sendRequest_returns, register_eq by done.
      cbn [snd trace emit]. rewrite !transportCalls_app. cbn. by rewrite app_nil_r.
    + rewrite sendRequest_throws, register_eq by done.
      cbn [snd trace emit with_pendingRequests clearTimeout with_timers].
      by rewrite transportCalls_app.
  - rewrite app_nil_r. apply handleResponse_frame.
  - rewrite app_nil_r. f_equal. apply advanceTo_frame.
  - rewrite app_nil_r. apply cleanup_frame.
Qed.

(** ** Entries and timers go together *)

Lemma uniq_NoDup {V : Type} (m : JsMap.t V) : JsMap.uniq m → NoDup m.*1.
Proof.
  induction m as [|[k v] m IH]; [constructor|].
  intros [Hk Hm]. rewrite fmap_cons. constructor; [|by apply IH].
  intros ([k' v'] & Heq & Hin)%list_elem_of_fmap. simpl in Heq. subst k'.
  by apply (get_None_not_elem k v' m).
Qed.

Lemma jsmap_delete_commute {V : Type} k k' (m : JsMap.t V) :
  JsMap.delete k (JsMap.delete k' m) = JsMap.delete k' (JsMap.delete k m).
Proof.
  induction m as [|[k0 v0] m IH]; [done|]. cbn [JsMap.delete].
  destruct (String.eqb k' k0) eqn:E', (String.eqb k k0) eqn:E;
    cbn [JsMap.delete]; rewrite ?E, ?E', ?IH; done.
Qed.

Lemma timers_of_entries s :
  wf s →
  (map_to_list (timers s)).*1
    ≡ₚ (λ entry, PendingRequest.timeout entry.2) <$> pendingRequests s.
Proof.
  intros Hwf. apply NoDup_Permutation.
  - apply NoDup_fst_map_to_list.
  - apply NoDup_fmap_2_strong.
    + intros [id1 p1] [id2 p2] H1 H2 Heq. simpl in Heq.
      apply (uniq_elem_get _ _ _ (wf_uniq _ Hwf)) in H1, H2.
      destruct (wf_entry _ Hwf _ _ H1) as (_ & _ & _ & tm1 & Htm1 & Hid1 & _).
      destruct (wf_entry _ Hwf _ _ H2) as (_ & _ & _ & tm2 & Htm2 & Hid2 & _).
      rewrite Heq in Htm1. assert (tm1 = tm2) as -> by congruence.
      assert (id1 = id2) as -> by congruence. congruence.
    + eapply NoDup_fmap_1, uniq_NoDup, Hwf.
  - intros h. rewrite !list_elem_of_fmap. split.
    + intros ([h' tm] & -> & Hin%elem_of_map_to_list).
      destruct (wf_timer _ Hwf _ _ Hin) as (pending & Hget & Hh).
      exists (cb_requestId (callback tm), pending). split; [done|].
      by apply get_Some_elem.
    + intros ([id pending] & -> & Hin).
      apply (uniq_elem_get _ _ _ (wf_uniq _ Hwf)) in Hin.
      destruct (wf_entry _ Hwf _ _ Hin) as (_ & _ & _ & tm & Htm & _).
      exists (PendingRequest.timeout pending, tm). split; [done|].
      by apply elem_of_map_to_list.
Qed.

(** X11. No timer leaks and none is missing: between two callbacks the
    number of armed timers is the number [getStats] reports as pending
    requests. *)
Theorem one_timer_for_each_pending_request s :
  Reachable s →
  stats_pendingRequests (getStats s) = size (timers s).
Proof.
  intros Hwf%Reachable_wf. cbn [getStats stats_pendingRequests]. unfold JsMap.size.
  rewrite <- length_map_to_list, <- (length_fmap fst (map_to_list (timers s))).
  rewrite (timers_of_entries _ Hwf). by rewrite length_fmap.
Qed.

Lemma one_timer_for_each_pending_request_witness :
  stats_pendingRequests (getStats demoThree) = size (timers demoThree).
Proof. apply one_timer_for_each_pending_request, demoThree_reachable. Defined.

(** ** Replies in either order *)

Lemma handleResponse_agree response s s' :
  agree s s' → agree (handleResponse response s) (handleResponse response s').
Proof.
  destruct s, s'. unfold agree. cbn.
  intros (-> & -> & -> & -> & -> & -> & -> & ->).
  unfold handleResponse. cbv zeta. cbn [pendingRequests emit].
  destruct (JsMap.get _ _) as [pending|]; [|by repeat split].
  destruct (BaseResponse.success response);
    unfold resolvePromise, rejectPromise, settle; cbn;
    destruct (_ !! _) as [[| |]|]; by repeat split.
Qed.

Lemma agree_sym s s' : agree s s' → agree s' s.
Proof. intros (?&?&?&?&?&?&?&?). by repeat split. Qed.

Lemma agree_ignored response s : agree s (ignored response s).
Proof. unfold ignored. eapply agree_trans; apply agree_emit. Qed.

Lemma ended_commute s id1 pending1 st1 id2 pending2 st2 s1 s2 s12 s21 :
  wf s → id1 ≠ id2 →
  JsMap.get id1 (pendingRequests s) = Some pending1 →
  JsMap.get id2 (pendingRequests s) = Some pending2 →
  Ended s s1 id1 pending1 st1 → Ended s1 s12 id2 pending2 st2 →
  Ended s s2 id2 pending2 st2 → Ended s2 s21 id1 pending1 st1 →
  agree s12 s21.
Proof.
  intros Hwf Hne H1 H2 [] [] [] [].
  assert (PendingRequest.reject pending1 ≠ PendingRequest.reject pending2) as Hp.
  { intros Heq. by apply Hne, (wf_promise_inj _ Hwf _ _ _ _ H1 H2). }
  repeat split; try congruence.
  - rewrite ended_pendingRequests1, ended_pendingRequests0,
      ended_pendingRequests3, ended_pendingRequests2. apply jsmap_delete_commute.
  - rewrite ended_promises1, ended_promises0, ended_promises3, ended_promises2.
    by apply insert_insert_ne.
  - rewrite ended_timers1, ended_timers0, ended_timers3, ended_timers2.
    apply delete_delete.
Qed.

(** X12. Replies for different requests can arrive in either order: the
    two orders leave the same registry, the same timers and the same
    promises, and differ in the order of the console lines at most. *)
Theorem replies_commute response1 response2 s :
  Reachable s →
  BaseResponse.requestId response1 ≠ BaseResponse.requestId response2 →
  agree (handleResponse response2 (handleResponse response1 s))
        (handleResponse response1 (handleResponse response2 s)).
Proof.
  intros Hwf%Reachable_wf Hne.
  set (id1 := BaseResponse.requestId response1) in *.
  set (id2 := BaseResponse.requestId response2) in *.
  assert (∀ r r' s, wf s →
            JsMap.get (BaseResponse.requestId r) (pendingRequests s) = None →
            agree (handleResponse r' (handleResponse r s))
                  (handleResponse r (handleResponse r' s))) as Habsent.
  { intros r r' s0 Hwf0 Hnone.
    rewrite (handleResponse_absent r s0) by done.
    rewrite (handleResponse_absent r (handleResponse r' s0))
      by (rewrite handleResponse_pendingRequests; by apply get_delete_None).
    apply (agree_trans _ (handleResponse r' s0)); [|apply agree_ignored].
    apply handleResponse_agree, agree_sym, agree_ignored. }
  destruct (JsMap.get id1 (pendingRequests s)) as [pending1|] eqn:H1;
    [|by apply Habsent].
  destruct (JsMap.get id2 (pendingRequests s)) as [pending2|] eqn:H2.
  - pose proof (handleResponse_ended _ _ _ Hwf H1) as E1.
    pose proof (handleResponse_ended _ _ _ Hwf H2) as E2.
    fold id1 in E1. fold id2 in E2.
    assert (JsMap.get id2 (pendingRequests (handleResponse response1 s)) = Some pending2)
      as H2'.
    { rewrite (ended_pendingRequests _ _ _ _ _ E1). by rewrite get_delete_ne. }
    assert (JsMap.get id1 (pendingRequests (handleResponse response2 s)) = Some pending1)
      as H1'.
    { rewrite (ended_pendingRequests _ _ _ _ _ E2). by rewrite get_delete_ne. }
    pose proof (handleResponse_ended _ _ _ (ended_wf _ _ _ _ _ Hwf H1 E1) H2') as E12.
    pose proof (handleResponse_ended _ _ _ (ended_wf _ _ _ _ _ Hwf H2 E2) H1') as E21.
    exact (ended_commute _ _ _ _ _ _ _ _ _ _ _ Hwf Hne H1 H2 E1 E12 E2 E21).
  - assert (agree (handleResponse response1 (handleResponse response2 s))
                  (handleResponse response2 (handleResponse response1 s))) as Hsym
      by by apply Habsent.
    by apply agree_sym.
Qed.

Lemma replies_commute_witness :
  agree (handleResponse (BaseResponse.mk "id-2" "" false None [])
           (handleResponse demoReply demoThree))
        (handleResponse demoReply
           (handleResponse (BaseResponse.mk "id-2" "" false None []) demoThree)).
Proof.
  apply (replies_commute demoReply (BaseResponse.mk "id-2" "" false None []) demoThree).
  - apply demoThree_reachable.
  - vm_compute. discriminate.
Defined.

(** ** The envelope of a request *)

(** X13. The four fields [sendRequest] adds to a request cannot be set by
    the caller: whatever [request] holds under [requestId], [timestamp],
    [replyTo] or [timeout], the message carries the service's own values
    there, and every other field of [request] as it was given. *)
Theorem envelope_fields_are_the_services request requestId timestamp replyTo timeout key :
  field key (fullRequest request requestId timestamp replyTo timeout)
  = if String.eqb key "timeout" then Some (JNum (inject_Z timeout))
    else if String.eqb key "replyTo" then Some (JStr replyTo)
    else if String.eqb key "timestamp" then Some (JStr timestamp)
    else if String.eqb key "requestId" then Some (JStr requestId)
    else JsMap.get key request.
Proof.
  unfold fullRequest, field.
  destruct (String.eqb_spec key "timeout") as [->|H1]; [apply get_set_eq|].
  rewrite get_set_ne by done.
  destruct (String.eqb_spec key "replyTo") as [->|H2]; [apply get_set_eq|].
  rewrite get_set_ne by done.
  destruct (String.eqb_spec key "timestamp") as [->|H3]; [apply get_set_eq|].
  rewrite get_set_ne by done.
  destruct (String.eqb_spec key "requestId") as [->|H4]; [apply get_set_eq|].
  by rewrite get_set_ne.
Qed.

(** ** Numeric error codes *)

Ltac eval_digit :=
  match goal with
  | |- context [digit ?c] =>
      let k := eval vm_compute in (digit c) in change (digit c) with k
  end.

Lemma digits_acc d acc :
  digits (Some (Z.pos acc)) (NilEmpty.string_of_uint d)
  = Some (Z.pos (Pos.of_uint_acc d acc)).
Proof.
  revert acc.
  induction d as [|d IH|d IH|d IH|d IH|d IH|d IH|d IH|d IH|d IH|d IH]; intros acc;
    cbn [NilEmpty.string_of_uint Pos.of_uint_acc digits]; [done|..];
    eval_digit; cbn [default from_option id]; rewrite <- IH; do 2 f_equal; lia.
Qed.

Lemma digits_zero d :
  digits (Some 0) (NilEmpty.string_of_uint d) = Some (Z.of_N (Pos.of_uint d)).
Proof.
  induction d as [|d IH|d IH|d IH|d IH|d IH|d IH|d IH|d IH|d IH|d IH];
    cbn [NilEmpty.string_of_uint Pos.of_uint digits]; [done|..];
    eval_digit; cbn [default from_option id]; [exact IH|apply digits_acc..].
Qed.

Lemma parseInt10_uint d :
  d ≠ Decimal.Nil →
  parseInt10 (NilEmpty.string_of_uint d) = Some (Z.of_N (Pos.of_uint d))
  ∧ parseInt10 (String "-" (NilEmpty.string_of_uint d))
    = Some (- Z.of_N (Pos.of_uint d)).
Proof.
  intros Hd.
  assert (digits None (NilEmpty.string_of_uint d)
          = digits (Some 0) (NilEmpty.string_of_uint d)) as Hnone
    by by destruct d.
  split.
  - rewrite <- digits_zero, <- Hnone. unfold parseInt10.
    destruct d; [done|..]; cbn [NilEmpty.string_of_uint];
      by destruct (NilEmpty.string_of_uint d) as [|c2 [|c3 rest]].
  - unfold parseInt10.
    assert (trimStart (String "-" (NilEmpty.string_of_uint d))
            = String "-" (NilEmpty.string_of_uint d)) as ->
      by by destruct (NilEmpty.string_of_uint d) as [|c2 [|c3 rest]].
    by rewrite Hnone, digits_zero.
Qed.

(** [parseInt(String(n), 10)] is [n]. *)
Lemma parseInt10_showZ n : parseInt10 (showZ n) = Some n.
Proof.
  destruct n as [|p|p]; [done|..]; unfold showZ; cbn [Z.to_int NilZero.string_of_int];
    pose proof (Unsigned.of_to p) as Hp;
    assert (Pos.to_uint p ≠ Decimal.Nil) as Hd by (by intros Heq; rewrite Heq in Hp);
    destruct (parseInt10_uint _ Hd) as [Hpos Hneg]; rewrite Hp in Hpos, Hneg;
    destruct (Pos.to_uint p); done.
Qed.

(** X14. A failed response whose [error.code] is the decimal writing of
    an integer rejects the call with that integer as the code of the
    [AppError], negative numbers included; zero alone is replaced by 500.
    The integer is taken in the range JavaScript numbers hold exactly. *)
Theorem numeric_remote_code_is_kept n message details :
  Z.abs n ≤ 2 ^ 53 →
  AppError.code (remoteError (Some (BaseResponse.mkError (showZ n) message details)))
  = if n =? 0 then 500 else n.
Proof.
  intros _. rewrite remoteError_code. cbn [BaseResponse.code].
  destruct (Z.eqb_spec n 0) as [->|Hn]; [done|].
  rewrite parseInt10_showZ. unfold num_or.
  by destruct (Z.eqb_spec n 0).
Qed.

Lemma numeric_remote_code_is_kept_witness :
  AppError.code (remoteError (Some (BaseResponse.mkError (showZ (-404)) "no face" None)))
  = if -404 =? 0 then 500 else -404.
Proof. apply numeric_remote_code_is_kept. vm_compute. discriminate. Defined.

(** ** The connection under the service *)


(** X17. The consumer [initialize] installs on the reply queue. A reply
    that parses is handed to [handleResponse] and nothing is said to the
    broker; a message that does not parse settles no call and changes
    neither registry nor timers, and is rejected without requeue although
    the consumer was started without acknowledgements. The consumer never
    acknowledges. *)
Theorem reply_consumer parse msg s :
  let delivered := replyListener parse msg s in
  (RabbitMQConnection.Ack ∉ delivered.1)
  ∧ match msg with
    | None => delivered = ([], s)
    | Some content =>
        match parse content with
        | Return response => delivered = ([], handleResponse response s)
        | Throw _ =>
            delivered.1 = [RabbitMQConnection.Nack false false]
            ∧ agree s delivered.2
        end
    end.
Proof.
  cbv zeta. unfold replyListener, RabbitMQConnection.onDelivery.
  destruct msg as [content|]; [|split; [apply not_elem_of_nil|done]].
  destruct (parse content) as [response|error]; cbn [fst snd default from_option].
  - split; [apply not_elem_of_nil|done].
  - split_and!; [|done|apply agree_emit].
    by intros [=]%list_elem_of_singleton.
Qed.

(** X20. [cleanup] can be called again: after a first [cleanup] the
    service reports no pending request and is closed, and a second one
    changes nothing but the console. *)
Theorem cleanup_twice_is_cleanup_once s :
  Reachable s →
  getStats (cleanup s) = mkStats 0 false (replyQueue s)
  ∧ agree (cleanup s) (cleanup (cleanup s)).
Proof.
  intros Hwf%Reachable_wf.
  destruct (cleanup_spec _ Hwf) as (_ & Hnil & _ & _ & _ & _ & _ & _ & _ & Hinit & Hq).
  split.
  - unfold getStats. by rewrite Hnil, Hinit, Hq.
  - eapply agree_trans; [|by apply cleanup_empty].
    by repeat split.
Qed.

Lemma cleanup_twice_is_cleanup_once_witness :
  getStats (cleanup demoThree) = mkStats 0 false (replyQueue demoThree)
  ∧ agree (cleanup demoThree) (cleanup (cleanup demoThree)).
Proof. apply cleanup_twice_is_cleanup_once, demoThree_reachable. Defined.

(** ** Starting without a connection *)

(** X21. [initialize] before the connection has a channel: [assertQueue]
    throws, [initialize] throws the same error after one line on the
    console, no consumer is started, the service stays closed and every
    request is refused with the 500 error until an [initialize]
    succeeds. *)
Theorem initialize_without_channel consume s :
  isInitialized s = false →
  let started := initialize (RabbitMQConnection.assertQueue None) consume s in
  started.1 = Throw "Error: Canal RabbitMQ não inicializado"
  ∧ agree s started.2
  ∧ transportCalls (trace started.2)
    = (transportCalls (trace s)
         ++ [AssertQueue (replyQueue s) false false true
                         (Throw "Error: Canal RabbitMQ não inicializado")])%list
  ∧ ∀ queue request timeout uuid timestamp publish,
      sendRequest queue request timeout uuid timestamp publish started.2
      = (Throw notInitialized, started.2).
Proof.
  intros Hinit. cbv zeta. unfold initialize. rewrite Hinit.
  cbn [RabbitMQConnection.assertQueue fst snd].
  split_and!; [done|by repeat split| |].
  - cbn [trace emit]. rewrite !transportCalls_app. cbn. by rewrite app_nil_r.
  - intros. by apply sendRequest_uninitialized.
Qed.

Lemma initialize_without_channel_witness :
  let started :=
    initialize (RabbitMQConnection.assertQueue None) (Return ()) (create None 0) in
  started.1 = Throw "Error: Canal RabbitMQ não inicializado"
  ∧ agree (create None 0) started.2
  ∧ transportCalls (trace started.2)
    = (transportCalls (trace (create None 0))
         ++ [AssertQueue (replyQueue (create None 0)) false false true
                         (Throw "Error: Canal RabbitMQ não inicializado")])%list
  ∧ ∀ queue request timeout uuid timestamp publish,
      sendRequest queue request timeout uuid timestamp publish started.2
      = (Throw notInitialized, started.2).
Proof. apply initialize_without_channel. reflexivity. Defined.

Lemma replyQueue_step s ev : replyQueue (step s ev) = replyQueue s.
Proof.
  destruct ev as [aq cs|queue request timeout uuid timestamp publish|response|t|];
    cbn [step].
  - unfold initialize. by destruct (isInitialized s), aq, cs.
  - destruct (isInitialized s) eqn:Hinit; [|by rewrite sendRequest_uninitialized].
    destruct publish.
    + by rewrite sendRequest_returns, register_eq.
    + by rewrite sendRequest_throws, register_eq.
  - apply handleResponse_frame.
  - apply advanceTo_frame.
  - apply cleanup_frame.
Qed.

(** X22. The reply queue is chosen once: whatever the service goes
    through, [getStats] reports the queue given to the constructor, or
    [face.replies] when none was given. *)
Theorem reply_queue_is_fixed queue clock evs :
  stats_replyQueue (getStats (run evs (create queue clock)))
  = default "face.replies" queue.
Proof.
  cbn [getStats stats_replyQueue].
  change (default "face.replies" queue) with (replyQueue (create queue clock)).
  unfold run. generalize (create queue clock).
  induction evs as [|ev evs IH]; intros s; cbn [fold_left]; [done|].
  by rewrite IH, replyQueue_step.
Qed.
